(* ===================================================================== *)
(*  gemini-streaming-audio: the dual-path audio relay of the backend     *)
(*                                                                       *)
(*  Two revisions of the backend server are embedded:                    *)
(*    - module [Relay]   : the server of src/unnamed/part_003            *)
(*                         (hand-written WAV header, sentinel filter,    *)
(*                          discard on close);                           *)
(*    - module [Backend] : src/backend/server.js                         *)
(*                         (join of the base64 fragments, wavefile       *)
(*                          encoder, final batch on close).              *)
(*  The receiver of src/frontend/src/GdmLiveAudioSecure.tsx is in        *)
(*  module [Receiver].                                                   *)
(* ===================================================================== *)

From Stdlib Require Import List String Ascii NArith ZArith Arith Bool Lia.
From Stdlib Require Import Strings.Byte.
From Stdlib Require Import Permutation Sorted.
Import ListNotations.

Local Open Scope string_scope.
Local Open Scope list_scope.

(* --------------------------------------------------------------------- *)
(*  A small error monad: [None] is a thrown exception.                   *)
(* --------------------------------------------------------------------- *)

Definition bind {A B : Type} (m : option A) (k : A -> option B) : option B :=
  match m with
  | Some a => k a
  | None => None
  end.

Notation "x <- m ;; k" := (bind m (fun x => k))
  (at level 61, m at next level, right associativity).

(* --------------------------------------------------------------------- *)
(*  Bytes and Node Buffers                                               *)
(* --------------------------------------------------------------------- *)

(** The low eight bits of a number, as a byte. *)
Definition byte_of_N (n : N) : byte :=
  match Byte.of_N (n mod 256) with
  | Some b => b
  | None => x00
  end.

Module Buffer.

(** A Buffer is its sequence of bytes. *)
Definition t := list byte.

(** [Buffer.alloc(n)]: n zero bytes. *)
Definition alloc (n : nat) : t := repeat x00 n.

(** Overwrite a prefix of [buf] with [src]; what does not fit is not
    written. *)
Fixpoint overwrite (src buf : list byte) : list byte :=
  match src, buf with
  | s :: src', _ :: buf' => s :: overwrite src' buf'
  | _, _ => buf
  end.

Fixpoint blit (src : list byte) (offset : nat) (buf : list byte) : list byte :=
  match offset, buf with
  | O, _ => overwrite src buf
  | S k, b :: buf' => b :: blit src k buf'
  | S _, [] => []
  end.

(** [buf.write(str, offset)] for an ASCII string. *)
Definition write (str : string) (offset : nat) (buf : t) : t :=
  blit (map byte_of_ascii (list_ascii_of_string str)) offset buf.

Definition le_bytes32 (v : N) : list byte :=
  [byte_of_N v; byte_of_N (v / 256); byte_of_N (v / 65536);
   byte_of_N (v / 16777216)].

Definition le_bytes16 (v : N) : list byte :=
  [byte_of_N v; byte_of_N (v / 256)].

(** [buf.writeUInt32LE(value, offset)]: a RangeError when the value does
    not fit 32 bits or the four bytes do not fit the buffer. *)
Definition writeUInt32LE (value : N) (offset : nat) (buf : t) : option t :=
  if ((value <=? 4294967295)%N && (offset + 4 <=? List.length buf)%nat)%bool
  then Some (blit (le_bytes32 value) offset buf)
  else None.

Definition writeUInt16LE (value : N) (offset : nat) (buf : t) : option t :=
  if ((value <=? 65535)%N && (offset + 2 <=? List.length buf)%nat)%bool
  then Some (blit (le_bytes16 value) offset buf)
  else None.

(** [Buffer.concat(list)]. *)
Definition concat (l : list t) : t := List.concat l.

(** Readers, used to state what a header holds. *)
Definition byte_at (buf : t) (i : nat) : N := Byte.to_N (nth i buf x00).

Definition readUInt16LE (buf : t) (offset : nat) : N :=
  (byte_at buf offset + 256 * byte_at buf (offset + 1))%N.

Definition readUInt32LE (buf : t) (offset : nat) : N :=
  (byte_at buf offset + 256 * byte_at buf (offset + 1)
   + 65536 * byte_at buf (offset + 2)
   + 16777216 * byte_at buf (offset + 3))%N.

Definition slice (buf : t) (from to : nat) : t :=
  firstn (to - from) (skipn from buf).

End Buffer.

(* --------------------------------------------------------------------- *)
(*  Base64 as the runtime's Buffer does it                               *)
(* --------------------------------------------------------------------- *)

Module Base64.

Definition alphabet : string :=
  "ABCDEFGHIJKLMNOPQRSTUVWXYZabcdefghijklmnopqrstuvwxyz0123456789+/".

Definition char_of_sextet (n : N) : ascii :=
  match String.get (N.to_nat n) alphabet with
  | Some c => c
  | None => "="%char
  end.

(** The value of a character: the standard alphabet and the URL-safe
    one are both accepted; everything else has no value. *)
Definition unbase64 (c : ascii) : option N :=
  let n := N_of_ascii c in
  if ((65 <=? n) && (n <=? 90))%N%bool then Some (n - 65)%N
  else if ((97 <=? n) && (n <=? 122))%N%bool then Some (n - 71)%N
  else if ((48 <=? n) && (n <=? 57))%N%bool then Some (n + 4)%N
  else if ((n =? 43) || (n =? 45))%N%bool then Some 62%N
  else if ((n =? 47) || (n =? 95))%N%bool then Some 63%N
  else None.

(** [buf.toString('base64')]: standard alphabet, padded. *)
Fixpoint encode (bs : list byte) : string :=
  match bs with
  | [] => ""
  | [a] =>
      let x := Byte.to_N a in
      String (char_of_sextet (x / 4))
        (String (char_of_sextet ((x mod 4) * 16)) "==")
  | [a; b] =>
      let x := Byte.to_N a in
      let y := Byte.to_N b in
      String (char_of_sextet (x / 4))
        (String (char_of_sextet ((x mod 4) * 16 + y / 16))
           (String (char_of_sextet ((y mod 16) * 4)) "="))
  | a :: b :: c :: rest =>
      let x := Byte.to_N a in
      let y := Byte.to_N b in
      let z := Byte.to_N c in
      String (char_of_sextet (x / 4))
        (String (char_of_sextet ((x mod 4) * 16 + y / 16))
           (String (char_of_sextet ((y mod 16) * 4 + z / 64))
              (String (char_of_sextet (z mod 64)) (encode rest))))
  end.

(** The values of the characters the decoder consumes: characters
    without a value are skipped, and decoding stops for good at the
    first padding character. *)
Fixpoint sextets (s : string) : list N :=
  match s with
  | EmptyString => []
  | String c s' =>
      if Ascii.eqb c "="%char then []
      else match unbase64 c with
           | Some v => v :: sextets s'
           | None => sextets s'
           end
  end.

Fixpoint bytes_of_sextets (l : list N) : list byte :=
  match l with
  | a :: b :: c :: d :: rest =>
      byte_of_N (a * 4 + b / 16)
        :: byte_of_N ((b mod 16) * 16 + c / 4)
        :: byte_of_N ((c mod 4) * 64 + d)
        :: bytes_of_sextets rest
  | [a; b; c] =>
      [byte_of_N (a * 4 + b / 16); byte_of_N ((b mod 16) * 16 + c / 4)]
  | [a; b] => [byte_of_N (a * 4 + b / 16)]
  | _ => []
  end.

(** [Buffer.from(str, 'base64')]. *)
Definition decode (s : string) : Buffer.t := bytes_of_sextets (sextets s).

End Base64.

(* --------------------------------------------------------------------- *)
(*  Facts about bytes and base64                                         *)
(* --------------------------------------------------------------------- *)

Lemma to_N_byte_of_N (n : N) : Byte.to_N (byte_of_N n) = (n mod 256)%N.
Proof.
  unfold byte_of_N.
  destruct (Byte.of_N (n mod 256)) as [b|] eqn:E.
  - now apply Byte.to_of_N.
  - apply Byte.of_N_None_iff in E.
    pose proof (N.mod_upper_bound n 256). lia.
Qed.

Lemma byte_of_N_to_N (b : byte) : byte_of_N (Byte.to_N b) = b.
Proof.
  unfold byte_of_N.
  pose proof (Byte.to_N_bounded b) as Hb.
  rewrite N.mod_small by lia.
  now rewrite Byte.of_to_N.
Qed.

Definition sextet_values : list N := map N.of_nat (seq 0 64).

Lemma sextet_values_complete (n : N) : (n < 64)%N -> In n sextet_values.
Proof.
  intro H. unfold sextet_values.
  apply in_map_iff. exists (N.to_nat n). split; [lia|].
  apply in_seq. lia.
Qed.

Lemma unbase64_char_of_sextet (n : N) :
  (n < 64)%N -> Base64.unbase64 (Base64.char_of_sextet n) = Some n.
Proof.
  intro H. apply sextet_values_complete in H.
  assert (A : forallb
                (fun k => match Base64.unbase64 (Base64.char_of_sextet k) with
                          | Some v => N.eqb v k
                          | None => false
                          end) sextet_values = true) by (vm_compute; reflexivity).
  rewrite forallb_forall in A. specialize (A n H).
  destruct (Base64.unbase64 (Base64.char_of_sextet n)); [|discriminate].
  apply N.eqb_eq in A. now subst.
Qed.

Lemma char_of_sextet_not_pad (n : N) :
  (n < 64)%N -> Ascii.eqb (Base64.char_of_sextet n) "="%char = false.
Proof.
  intro H. apply sextet_values_complete in H.
  assert (A : forallb
                (fun k => negb (Ascii.eqb (Base64.char_of_sextet k) "="%char))
                sextet_values = true) by (vm_compute; reflexivity).
  rewrite forallb_forall in A. specialize (A n H).
  now apply negb_true_iff in A.
Qed.

Ltac Zify.zify_post_hook ::= Z.to_euclidean_division_equations.

Lemma sextets_cons (n : N) (s : string) :
  (n < 64)%N ->
  Base64.sextets (String (Base64.char_of_sextet n) s) = n :: Base64.sextets s.
Proof.
  intro H. simpl.
  now rewrite (char_of_sextet_not_pad n H), (unbase64_char_of_sextet n H).
Qed.

Lemma list_ind3 {A : Type} (P : list A -> Prop) :
  P [] -> (forall a, P [a]) -> (forall a b, P [a; b]) ->
  (forall a b c l, P l -> P (a :: b :: c :: l)) ->
  forall l, P l.
Proof.
  intros H0 H1 H2 H3.
  fix IH 1.
  intros [|a [|b [|c l]]].
  - exact H0.
  - exact (H1 a).
  - exact (H2 a b).
  - exact (H3 a b c l (IH l)).
Qed.

Lemma byte_of_N_eq (b : byte) (n : N) : n = Byte.to_N b -> byte_of_N n = b.
Proof. intros ->. apply byte_of_N_to_N. Qed.

(** Decoding what [toString('base64')] produced gives the bytes back. *)
Lemma decode_encode (bs : list byte) : Base64.decode (Base64.encode bs) = bs.
Proof.
  unfold Base64.decode.
  induction bs as [|a|a b|a b c l IH] using list_ind3.
  - reflexivity.
  - pose proof (Byte.to_N_bounded a) as Ha.
    cbn [Base64.encode].
    rewrite !sextets_cons by lia.
    cbn [Base64.sextets Ascii.eqb Bool.eqb Base64.bytes_of_sextets].
    f_equal. apply byte_of_N_eq. lia.
  - pose proof (Byte.to_N_bounded a) as Ha.
    pose proof (Byte.to_N_bounded b) as Hb.
    cbn [Base64.encode].
    rewrite !sextets_cons by lia.
    cbn [Base64.sextets Ascii.eqb Bool.eqb Base64.bytes_of_sextets].
    f_equal; [|f_equal]; apply byte_of_N_eq; lia.
  - pose proof (Byte.to_N_bounded a) as Ha.
    pose proof (Byte.to_N_bounded b) as Hb.
    pose proof (Byte.to_N_bounded c) as Hc.
    cbn [Base64.encode].
    rewrite !sextets_cons by lia.
    cbn [Base64.bytes_of_sextets]. rewrite IH.
    f_equal; [|f_equal; [|f_equal]]; apply byte_of_N_eq; lia.
Qed.

(* --------------------------------------------------------------------- *)
(*  JavaScript strings                                                   *)
(* --------------------------------------------------------------------- *)

(** Fragments, keys and messages of the protocol, whose characters play
    no part: as [string]. *)
Module JsString.

(** [list.join(sep)]. *)
Fixpoint join (sep : string) (l : list string) : string :=
  match l with
  | [] => ""
  | [x] => x
  | x :: rest => x ++ sep ++ join sep rest
  end.

(** A string is truthy unless it is empty. *)
Definition truthy (s : string) : bool := negb (String.eqb s "").

End JsString.

(** The text of a batch response, whose characters matter: a JavaScript
    string as the list of its UTF-16 code units. *)
Module JsText.

Definition t : Type := list N.

(** An ASCII literal of the source. *)
Definition ofString (s : string) : t :=
  map N_of_ascii (list_ascii_of_string s).

(** WhiteSpace and LineTerminator of ECMAScript, what [trim] removes:
    TAB, LF, VT, FF, CR, SP, NBSP, U+1680, U+2000-U+200A, LS, PS, U+202F,
    U+205F, U+3000 and U+FEFF. *)
Definition isWhiteSpace (u : N) : bool :=
  (((9 <=? u) && (u <=? 13)) || (u =? 32) || (u =? 160) || (u =? 5760)
   || ((8192 <=? u) && (u <=? 8202)) || (u =? 8232) || (u =? 8233)
   || (u =? 8239) || (u =? 8287) || (u =? 12288) || (u =? 65279))%N%bool.

Fixpoint trimStart (s : t) : t :=
  match s with
  | [] => []
  | u :: s' => if isWhiteSpace u then trimStart s' else s
  end.

Definition trimEnd (s : t) : t := rev (trimStart (rev s)).

Definition trim (s : t) : t := trimEnd (trimStart s).

(** A string is truthy unless it is empty. *)
Definition truthy (s : t) : bool :=
  match s with
  | [] => false
  | _ :: _ => true
  end.

(** [toLowerCase] on one code unit.  The case pairs of Unicode whose
    small form holds a code unit below U+0080 are all here: A-Z, U+0130
    (to i and U+0307) and U+212A (to k); so are the capitals of Latin-1.
    Every other code unit is kept: Unicode sends it to code units from
    U+0080 up, and the one use of the result, the search for the ASCII
    sentinel at line 161, cannot tell those from the unit itself
    (lemma [includes_any_lowering]). *)
Definition lowerUnit (u : N) : list N :=
  if ((65 <=? u) && (u <=? 90))%N%bool then [(u + 32)%N]
  else if ((192 <=? u) && (u <=? 222) && negb (u =? 215))%N%bool
       then [(u + 32)%N]
  else if (u =? 304)%N then [105%N; 775%N]
  else if (u =? 8490)%N then [107%N]
  else [u].

Definition toLowerCase (s : t) : t := flat_map lowerUnit s.

Fixpoint prefix (needle hay : t) : bool :=
  match needle, hay with
  | [], _ => true
  | _ :: _, [] => false
  | n :: needle', h :: hay' => (n =? h)%N && prefix needle' hay'
  end.

(** [hay.includes(needle)]. *)
Fixpoint includes (needle hay : t) : bool :=
  prefix needle hay
  || match hay with
     | [] => false
     | _ :: hay' => includes needle hay'
     end.

End JsText.

(* --------------------------------------------------------------------- *)
(*  What both revisions of the server share: the per-connection          *)
(*  variables of the 'connection' closure, the events that reach it and  *)
(*  the effects it has.                                                  *)
(* --------------------------------------------------------------------- *)

Inductive Session := LiveSession.
Inductive Timer := Interval3000.

(** A suspended activation of processBatchAudio: its locals, kept across
    the await of the batch request. *)
Record PendingBatch := {
  currentBuffer : list string;
  currentChunkId : nat
}.

Record State := {
  realtimeSession : option Session;
  audioBuffer : list string;
  batchInterval : option Timer;
  transcriptionCounter : nat;
  isProcessingBatch : bool;
  audioChunkCount : nat;
  (* bookkeeping of the event loop *)
  listening : bool;
  pending : list PendingBatch
}.

(** The closure as 'connection' finds it: the handlers of the client
    socket are registered only after the await of ai.live.connect. *)
Definition initial : State :=
  {| realtimeSession := None;
     audioBuffer := [];
     batchInterval := None;
     transcriptionCounter := 0;
     isProcessingBatch := false;
     audioChunkCount := 0;
     listening := false;
     pending := [] |}.

Definition set_realtimeSession (v : option Session) (s : State) : State :=
  {| realtimeSession := v; audioBuffer := audioBuffer s;
     batchInterval := batchInterval s;
     transcriptionCounter := transcriptionCounter s;
     isProcessingBatch := isProcessingBatch s;
     audioChunkCount := audioChunkCount s;
     listening := listening s; pending := pending s |}.

Definition set_audioBuffer (v : list string) (s : State) : State :=
  {| realtimeSession := realtimeSession s; audioBuffer := v;
     batchInterval := batchInterval s;
     transcriptionCounter := transcriptionCounter s;
     isProcessingBatch := isProcessingBatch s;
     audioChunkCount := audioChunkCount s;
     listening := listening s; pending := pending s |}.

Definition set_batchInterval (v : option Timer) (s : State) : State :=
  {| realtimeSession := realtimeSession s; audioBuffer := audioBuffer s;
     batchInterval := v;
     transcriptionCounter := transcriptionCounter s;
     isProcessingBatch := isProcessingBatch s;
     audioChunkCount := audioChunkCount s;
     listening := listening s; pending := pending s |}.

Definition set_transcriptionCounter (v : nat) (s : State) : State :=
  {| realtimeSession := realtimeSession s; audioBuffer := audioBuffer s;
     batchInterval := batchInterval s;
     transcriptionCounter := v;
     isProcessingBatch := isProcessingBatch s;
     audioChunkCount := audioChunkCount s;
     listening := listening s; pending := pending s |}.

Definition set_isProcessingBatch (v : bool) (s : State) : State :=
  {| realtimeSession := realtimeSession s; audioBuffer := audioBuffer s;
     batchInterval := batchInterval s;
     transcriptionCounter := transcriptionCounter s;
     isProcessingBatch := v;
     audioChunkCount := audioChunkCount s;
     listening := listening s; pending := pending s |}.

Definition set_audioChunkCount (v : nat) (s : State) : State :=
  {| realtimeSession := realtimeSession s; audioBuffer := audioBuffer s;
     batchInterval := batchInterval s;
     transcriptionCounter := transcriptionCounter s;
     isProcessingBatch := isProcessingBatch s;
     audioChunkCount := v;
     listening := listening s; pending := pending s |}.

Definition set_listening (v : bool) (s : State) : State :=
  {| realtimeSession := realtimeSession s; audioBuffer := audioBuffer s;
     batchInterval := batchInterval s;
     transcriptionCounter := transcriptionCounter s;
     isProcessingBatch := isProcessingBatch s;
     audioChunkCount := audioChunkCount s;
     listening := v; pending := pending s |}.

Definition set_pending (v : list PendingBatch) (s : State) : State :=
  {| realtimeSession := realtimeSession s; audioBuffer := audioBuffer s;
     batchInterval := batchInterval s;
     transcriptionCounter := transcriptionCounter s;
     isProcessingBatch := isProcessingBatch s;
     audioChunkCount := audioChunkCount s;
     listening := listening s; pending := v |}.

(** Messages of the relay to the client. *)
Inductive ServerMessage :=
| Status (message : string)
| RealtimeTranscription (text : string)
| CorrectedTranscription (text : JsText.t) (chunkId : nat) (timestamp : nat)
| ErrorMessage (message : string)
| ClosedMessage (reason : string).

Inductive RealtimeInput :=
| AudioInput (data : string)
| TextInput (text : string).

(** What a handler does to the world, in order.  [Log] stands for one
    console call and carries the fixed head of its line. *)
Inductive Effect :=
| WsSend (m : ServerMessage)
| Log (line : string)
| GenerateContent (wavBase64 : string)
| SendRealtimeInput (input : RealtimeInput)
| SetInterval
| ClearInterval
| WriteFile (chunkId : nat)
| SessionClose.

(** A message of the client, as [JSON.parse] and the reads of its
    properties see it. *)
Inductive Inbound :=
| Unparseable (error : string)   (* JSON.parse throws *)
| NoProperties (error : string)  (* parses to null: reading .type throws *)
| Data (type : option string) (audio : string) (text : string).

(** How the awaited batch request ends. *)
Inductive Outcome :=
| Failed                 (* rejected, or the response has no such path *)
| NoText                 (* the text is undefined *)
| Text (text : JsText.t).

Inductive Event :=
| LiveConnected                      (* ai.live.connect resolved *)
| LiveConnectFailed (message : string)
| LiveOpen
| LiveMessage (inputTranscription : option string)
| LiveError (message : string)
| LiveClose (reason : string)
| ClientMessage (m : Inbound)
| AudioSendSettled (error : option string)
| TextSendSettled (error : option string)
| TimerTick
| BatchSettled (o : Outcome) (now : nat)
| ClientClose.

(** Lines 111-122 (server.js 92-103): the guard, then the copy of the
    window, the sequence number and the reset, with no await between. *)
Definition drain (s : State) : option (list string * nat * State) :=
  if (isProcessingBatch s || (List.length (audioBuffer s) =? 0)%nat)%bool
  then None
  else
    let s1 := set_isProcessingBatch true s in
    let currentBuffer := audioBuffer s1 in
    let currentChunkId := transcriptionCounter s1 in
    let s2 := set_transcriptionCounter (S (transcriptionCounter s1)) s1 in
    let s3 := set_audioBuffer [] s2 in
    Some (currentBuffer, currentChunkId, s3).

(** The truth value of [realtimeSession]. *)
Definition has_session (s : State) : bool :=
  match realtimeSession s with
  | Some _ => true
  | None => false
  end.

Definition is_type (name : string) (type : option string) : bool :=
  match type with
  | Some t => String.eqb t name
  | None => false
  end.

Ltac break_match :=
  repeat (cbv beta iota;
          match goal with
          | |- context [match ?x with _ => _ end] =>
              lazymatch x with
              | context [match _ with _ => _ end] => fail
              | _ => destruct x eqn:?
              end
          end).

Ltac fields :=
  cbn [fst snd pending isProcessingBatch audioBuffer transcriptionCounter
         realtimeSession batchInterval audioChunkCount listening
         set_pending set_isProcessingBatch set_audioBuffer
         set_transcriptionCounter set_realtimeSession set_batchInterval
         set_audioChunkCount set_listening] in *.

Lemma drain_some (s : State) (cur : list string) (id : nat) (s1 : State) :
  drain s = Some (cur, id, s1) ->
  isProcessingBatch s = false
  /\ audioBuffer s <> []
  /\ cur = audioBuffer s
  /\ id = transcriptionCounter s
  /\ s1 = set_audioBuffer []
            (set_transcriptionCounter (S (transcriptionCounter s))
               (set_isProcessingBatch true s)).
Proof.
  unfold drain. intro H.
  destruct (isProcessingBatch s); [discriminate|].
  destruct (audioBuffer s) as [|f fs] eqn:E; [discriminate|].
  cbn in H. injection H as <- <- <-.
  repeat split; try reflexivity; try discriminate.
  fields. now rewrite E.
Qed.

Lemma drain_none (s : State) :
  drain s = None -> isProcessingBatch s = true \/ audioBuffer s = [].
Proof.
  unfold drain. destruct (isProcessingBatch s); [now left|].
  destruct (audioBuffer s); [now right|discriminate].
Qed.

(* --------------------------------------------------------------------- *)
(*  The server of src/unnamed/part_003                                   *)
(* --------------------------------------------------------------------- *)

Module Relay.

(** createWAVFromPCM (lines 60-96); an exception is rethrown after it
    is logged. *)
Definition createWAVFromPCM (pcmBase64Data : string) (sampleRate : N)
  : option string :=
  let pcmData := Base64.decode pcmBase64Data in
  let wavHeader := Buffer.alloc 44 in
  let wavHeader := Buffer.write "RIFF" 0 wavHeader in
  wavHeader <- Buffer.writeUInt32LE
                 (36 + N.of_nat (List.length pcmData)) 4 wavHeader ;;
  let wavHeader := Buffer.write "WAVE" 8 wavHeader in
  let wavHeader := Buffer.write "fmt " 12 wavHeader in
  wavHeader <- Buffer.writeUInt32LE 16 16 wavHeader ;;
  wavHeader <- Buffer.writeUInt16LE 1 20 wavHeader ;;
  wavHeader <- Buffer.writeUInt16LE 1 22 wavHeader ;;
  wavHeader <- Buffer.writeUInt32LE sampleRate 24 wavHeader ;;
  wavHeader <- Buffer.writeUInt32LE (sampleRate * 2) 28 wavHeader ;;
  wavHeader <- Buffer.writeUInt16LE 2 32 wavHeader ;;
  wavHeader <- Buffer.writeUInt16LE 16 34 wavHeader ;;
  let wavHeader := Buffer.write "data" 36 wavHeader in
  wavHeader <- Buffer.writeUInt32LE
                 (N.of_nat (List.length pcmData)) 40 wavHeader ;;
  let wavBuffer := Buffer.concat [wavHeader; pcmData] in
  Some (Base64.encode wavBuffer).

(** The PCM of a batch (lines 127-129): every fragment is decoded on
    its own, the buffers are concatenated and encoded again. *)
Definition combinedBuffer (currentBuffer : list string) : Buffer.t :=
  let audioBuffers := map Base64.decode currentBuffer in
  Buffer.concat audioBuffers.

Definition batchErrorLog : list Effect :=
  [Log "Batch processing error:"; Log "Error details:";
   Log "Falling back to accumulated real-time transcriptions"].

(** processBatchAudio up to its await (lines 110-154). *)
Definition processBatchAudio (s : State) : State * list Effect :=
  match drain s with
  | None => (s, [])
  | Some (currentBuffer, currentChunkId, s1) =>
      let combinedPCMBase64 := Base64.encode (combinedBuffer currentBuffer) in
      match createWAVFromPCM combinedPCMBase64 16000 with
      | Some wavBase64 =>
          (set_pending
             (pending s1 ++
                [{| currentBuffer := currentBuffer;
                    currentChunkId := currentChunkId |}]) s1,
           [Log "Processing batch:"; Log "Audio processing:";
            GenerateContent wavBase64])
      | None =>
          (set_isProcessingBatch false s1,
           [Log "Processing batch:"; Log "Audio processing:";
            Log "Error creating WAV file:"] ++ batchErrorLog)
      end
  end.

Definition sentinel : JsText.t := JsText.ofString "unclear audio".

(** processBatchAudio after its await (lines 156-186), for the
    activation [p]. *)
Definition resumeBatch (o : Outcome) (now : nat) (p : PendingBatch)
    (s : State) : State * list Effect :=
  let effects :=
    match o with
    | Failed => batchErrorLog
    | NoText => [Log "Empty transcription received, skipping"]
    | Text transcriptionText =>
        if (JsText.truthy transcriptionText
            && (0 <? List.length (JsText.trim transcriptionText))%nat)%bool
        then
          if JsText.includes sentinel
               (JsText.toLowerCase transcriptionText)
          then [Log "Filtering out unclear audio response"]
          else
            [WsSend (CorrectedTranscription
                       (JsText.trim transcriptionText)
                       (currentChunkId p) now);
             Log "CORRECTED transcription sent (via standard API):"]
        else [Log "Empty transcription received, skipping"]
    end in
  (set_isProcessingBatch false s, effects).

(** The callbacks given to ai.live.connect (lines 195-235). *)
Definition onopen (s : State) : State * list Effect :=
  (set_batchInterval (Some Interval3000) s,
   [Log "Real-time Gemini session connected successfully";
    WsSend (Status "Connected to Gemini Live");
    SetInterval;
    Log "Started batch processing interval (every 3 seconds)"]).

Definition onmessage (inputTranscription : option string) (s : State)
  : State * list Effect :=
  match inputTranscription with
  | Some transcriptionText =>
      (s, [Log "Received message from Gemini Live:";
           WsSend (RealtimeTranscription transcriptionText);
           Log "REALTIME transcription sent:"])
  | None =>
      (s, [Log "Received message from Gemini Live:";
           Log "Message structure unexpected - no inputTranscription found"])
  end.

Definition onerror (message : string) (s : State) : State * list Effect :=
  (s, [Log "Real-time session error:"; Log "Error details:";
       WsSend (ErrorMessage message)]).

Definition clearBatchInterval (s : State) : State * list Effect :=
  match batchInterval s with
  | Some _ => (set_batchInterval None s, [ClearInterval])
  | None => (s, [])
  end.

Definition onclose (reason : string) (s : State) : State * list Effect :=
  let '(s1, e1) := clearBatchInterval s in
  (s1, [Log "Real-time session closed:"; WsSend (ClosedMessage reason)] ++ e1).

(** The two ends of the await of ai.live.connect (lines 189-252 and
    the registrations that follow it). *)
Definition connected (s : State) : State * list Effect :=
  (set_listening true (set_realtimeSession (Some LiveSession) s),
   [Log "Gemini Live session initialized successfully"]).

Definition connectFailed (message : string) (s : State)
  : State * list Effect :=
  (set_listening true s,
   [Log "Failed to connect to Gemini Live:"; Log "Error details:";
    Log "Stack trace:";
    WsSend (ErrorMessage ("Failed to connect to Gemini Live: " ++ message))]).

Definition messageErrorEffects (error : string) : list Effect :=
  [Log "Error processing message:"; WsSend (ErrorMessage error)].

(** ws.on('message') up to its await (lines 256-296). *)
Definition wsMessage (m : Inbound) (s : State) : State * list Effect :=
  match m with
  | Unparseable error => (s, messageErrorEffects error)
  | NoProperties error => (s, messageErrorEffects error)
  | Data type audio text =>
      if (is_type "audio" type && has_session s)%bool then
        let s1 := set_audioChunkCount (S (audioChunkCount s)) s in
        let e1 :=
          if (audioChunkCount s1 mod 10 =? 0)%nat
          then [Log "Received audio chunks so far"] else [] in
        let s2 := set_audioBuffer (audioBuffer s1 ++ [audio]) s1 in
        (s2, e1 ++ [SendRealtimeInput (AudioInput audio)])
      else if (is_type "audio" type && negb (has_session s))%bool then
        (s, [Log "Received audio but no real-time session available"])
      else if (is_type "text" type && has_session s)%bool then
        (s, [SendRealtimeInput (TextInput text)])
      else (s, [])
  end.

(** After the await of sendRealtimeInput for an audio message: the
    inner try/catch only logs. *)
Definition audioSent (error : option string) (s : State)
  : State * list Effect :=
  match error with
  | None =>
      (s, if (audioChunkCount s =? 1)%nat
          then [Log "First audio chunk sent to Gemini Live successfully"]
          else [])
  | Some _ => (s, [Log "Error sending audio to Gemini Live:"])
  end.

(** After the await of sendRealtimeInput for a text message: an
    exception reaches the outer catch. *)
Definition textSent (error : option string) (s : State)
  : State * list Effect :=
  match error with
  | None => (s, [])
  | Some e => (s, messageErrorEffects e)
  end.

(** ws.on('close') (lines 298-316). *)
Definition wsClose (s : State) : State * list Effect :=
  let '(s1, e1) :=
    if (0 <? List.length (audioBuffer s))%nat
    then (set_audioBuffer [] s, [Log "Discarding incomplete audio chunks"])
    else (s, []) in
  let '(s2, e2) := clearBatchInterval s1 in
  (s2, [Log "Client disconnected"] ++ e1 ++ e2
         ++ [Log "WebSocket connection closed, resources cleaned up"]).

(** One turn of the event loop. *)
Definition step (e : Event) (s : State) : State * list Effect :=
  match e with
  | LiveConnected => connected s
  | LiveConnectFailed message => connectFailed message s
  | LiveOpen => onopen s
  | LiveMessage t => onmessage t s
  | LiveError message => onerror message s
  | LiveClose reason => onclose reason s
  | ClientMessage m => if listening s then wsMessage m s else (s, [])
  | AudioSendSettled error => audioSent error s
  | TextSendSettled error => textSent error s
  | TimerTick => processBatchAudio s
  | BatchSettled o now =>
      match pending s with
      | [] => (s, [])
      | p :: rest => resumeBatch o now p (set_pending rest s)
      end
  | ClientClose => if listening s then wsClose s else (s, [])
  end.

Fixpoint run (events : list Event) (s : State) : State * list Effect :=
  match events with
  | [] => (s, [])
  | e :: rest =>
      let '(s1, out1) := step e s in
      let '(s2, out2) := run rest s1 in
      (s2, out1 ++ out2)
  end.

End Relay.

(* --------------------------------------------------------------------- *)
(*  src/backend/server.js                                                *)
(* --------------------------------------------------------------------- *)

Module Backend.
Section WithWaveFile.

(** The wavefile package: [fromScratch(channels, rate, bitDepth,
    samples)] followed by [toBuffer()], on the bytes of the samples;
    [None] when it throws. *)
Variable wavefile : N -> N -> string -> list byte -> option Buffer.t.

(** [fs.writeFileSync] on the file of a batch (its name holds the
    sequence number of the batch and the time) and the buffer written:
    [false] when it throws. *)
Variable writeFileSync : nat -> Buffer.t -> bool.

(** createWAVFromPCM (lines 44-77).  The Int16Array has
    floor(length / 2) elements; an exception of the package or of the
    write is logged and thrown again. *)
Definition createWAVFromPCM (pcmBase64Data : string) (sampleRate : N)
    (saveFilename : option nat) : option (string * list Effect) :=
  let pcmData := Base64.decode pcmBase64Data in
  let samples := firstn (2 * (List.length pcmData / 2)) pcmData in
  wavBuffer <- wavefile 1 sampleRate "16" samples ;;
  saved <-
    match saveFilename with
    | Some chunkId =>
        if writeFileSync chunkId wavBuffer
        then Some [WriteFile chunkId; Log "WAV file saved:";
                   Log "  - Duration:"; Log "  - Samples:"; Log "  - Size:"]
        else None
    | None => Some []
    end ;;
  Some (Base64.encode wavBuffer, saved).

(** The PCM of a batch (line 107, then line 47): the fragments are
    joined as strings and the joined string is decoded once. *)
Definition combinedPCMBase64 (currentBuffer : list string) : string :=
  JsString.join "" currentBuffer.

Definition combinedBuffer (currentBuffer : list string) : Buffer.t :=
  Base64.decode (combinedPCMBase64 currentBuffer).

Definition batchErrorLog : list Effect :=
  [Log "Batch processing error:"; Log "Error details:";
   Log "Falling back to accumulated real-time transcriptions"].

(** processBatchAudio up to its await (lines 91-134). *)
Definition processBatchAudio (s : State) : State * list Effect :=
  match drain s with
  | None => (s, [])
  | Some (currentBuffer, currentChunkId, s1) =>
      match createWAVFromPCM (combinedPCMBase64 currentBuffer) 16000
              (Some currentChunkId) with
      | Some (wavBase64, saved) =>
          (set_pending
             (pending s1 ++
                [{| currentBuffer := currentBuffer;
                    currentChunkId := currentChunkId |}]) s1,
           [Log "Processing batch:"] ++ saved ++ [GenerateContent wavBase64])
      | None =>
          (set_isProcessingBatch false s1,
           [Log "Processing batch:"; Log "Error creating WAV file:"]
             ++ batchErrorLog)
      end
  end.

(** processBatchAudio after its await (lines 136-157). *)
Definition resumeBatch (o : Outcome) (now : nat) (p : PendingBatch)
    (s : State) : State * list Effect :=
  let effects :=
    match o with
    | Failed => batchErrorLog
    | NoText => []
    | Text transcriptionText =>
        if JsText.truthy transcriptionText
        then
          [WsSend (CorrectedTranscription
                     (JsText.trim transcriptionText)
                     (currentChunkId p) now);
           Log "CORRECTED transcription sent (via standard API):"]
        else []
    end in
  (set_isProcessingBatch false s, effects).

(** The callbacks given to ai.live.connect (lines 165-199). *)
Definition onopen (s : State) : State * list Effect :=
  (set_batchInterval (Some Interval3000) s,
   [Log "Real-time Gemini session connected";
    WsSend (Status "Connected to Gemini");
    SetInterval;
    Log "Started batch processing interval (every 3 seconds)"]).

Definition onmessage (inputTranscription : option string) (s : State)
  : State * list Effect :=
  match inputTranscription with
  | Some transcriptionText =>
      (s, [WsSend (RealtimeTranscription transcriptionText);
           Log "REALTIME transcription sent:"])
  | None => (s, [])
  end.

Definition onerror (message : string) (s : State) : State * list Effect :=
  (s, [Log "Real-time session error:"; WsSend (ErrorMessage message)]).

Definition clearBatchInterval (s : State) : State * list Effect :=
  match batchInterval s with
  | Some _ => (set_batchInterval None s, [ClearInterval])
  | None => (s, [])
  end.

Definition onclose (reason : string) (s : State) : State * list Effect :=
  let '(s1, e1) := clearBatchInterval s in
  (s1, [WsSend (ClosedMessage reason)] ++ e1).

(** The two ends of the await of ai.live.connect (lines 160-210). *)
Definition connected (s : State) : State * list Effect :=
  (set_listening true (set_realtimeSession (Some LiveSession) s), []).

Definition connectFailed (message : string) (s : State)
  : State * list Effect :=
  (set_listening true s,
   [Log "Failed to connect to Gemini:";
    WsSend (ErrorMessage ("Failed to connect to Gemini: " ++ message))]).

Definition messageErrorEffects (error : string) : list Effect :=
  [Log "Error processing message:"; WsSend (ErrorMessage error)].

(** ws.on('message') up to its await (lines 214-244). *)
Definition wsMessage (m : Inbound) (s : State) : State * list Effect :=
  match m with
  | Unparseable error => (s, messageErrorEffects error)
  | NoProperties error => (s, messageErrorEffects error)
  | Data type audio text =>
      if (is_type "audio" type && has_session s)%bool then
        let s1 := set_audioChunkCount (S (audioChunkCount s)) s in
        let e1 :=
          if (audioChunkCount s1 mod 10 =? 0)%nat
          then [Log "Received audio chunks so far"] else [] in
        let s2 := set_audioBuffer (audioBuffer s1 ++ [audio]) s1 in
        (s2, e1 ++ [SendRealtimeInput (AudioInput audio)])
      else if (is_type "text" type && has_session s)%bool then
        (s, [SendRealtimeInput (TextInput text)])
      else (s, [])
  end.

(** After an await of sendRealtimeInput: an exception reaches the
    catch of the handler. *)
Definition inputSent (error : option string) (s : State)
  : State * list Effect :=
  match error with
  | None => (s, [])
  | Some e => (s, messageErrorEffects e)
  end.

(** ws.on('close') (lines 246-264). *)
Definition wsClose (s : State) : State * list Effect :=
  let '(s1, e1) :=
    if (0 <? List.length (audioBuffer s))%nat
    then processBatchAudio s
    else (s, []) in
  let '(s2, e2) := clearBatchInterval s1 in
  let e3 :=
    match realtimeSession s2 with
    | Some _ => [SessionClose]
    | None => []
    end in
  (s2, [Log "Client disconnected"] ++ e1 ++ e2 ++ e3).

Definition step (e : Event) (s : State) : State * list Effect :=
  match e with
  | LiveConnected => connected s
  | LiveConnectFailed message => connectFailed message s
  | LiveOpen => onopen s
  | LiveMessage t => onmessage t s
  | LiveError message => onerror message s
  | LiveClose reason => onclose reason s
  | ClientMessage m => if listening s then wsMessage m s else (s, [])
  | AudioSendSettled error => inputSent error s
  | TextSendSettled error => inputSent error s
  | TimerTick => processBatchAudio s
  | BatchSettled o now =>
      match pending s with
      | [] => (s, [])
      | p :: rest => resumeBatch o now p (set_pending rest s)
      end
  | ClientClose => if listening s then wsClose s else (s, [])
  end.

Fixpoint run (events : list Event) (s : State) : State * list Effect :=
  match events with
  | [] => (s, [])
  | e :: rest =>
      let '(s1, out1) := step e s in
      let '(s2, out2) := run rest s1 in
      (s2, out1 ++ out2)
  end.

End WithWaveFile.
End Backend.

(* --------------------------------------------------------------------- *)
(*  The receiver: the corrected_transcription case of ws.onmessage in    *)
(*  src/frontend/src/GdmLiveAudioSecure.tsx (lines 225-242)              *)
(* --------------------------------------------------------------------- *)

Module Receiver.

(** A JavaScript Map from chunkId to text, as the list of its entries
    in insertion order. *)
Definition ChunkMap := list (nat * string).

(** [map.set(key, value)]: the value of a present key is replaced in
    place, a new key is added at the end. *)
Fixpoint set (key : nat) (value : string) (m : ChunkMap) : ChunkMap :=
  match m with
  | [] => [(key, value)]
  | (k, v) :: rest =>
      if (k =? key)%nat then (k, value) :: rest
      else (k, v) :: set key value rest
  end.

(** [entries.sort((a, b) => a[0] - b[0])]: a stable sort on the key. *)
Fixpoint insert (e : nat * string) (sorted : list (nat * string))
  : list (nat * string) :=
  match sorted with
  | [] => [e]
  | x :: rest =>
      if (fst e <=? fst x)%nat then e :: x :: rest
      else x :: insert e rest
  end.

Definition sort (entries : list (nat * string)) : list (nat * string) :=
  fold_right insert [] entries.

Record View := {
  transcriptionChunks : ChunkMap;
  correctedTranscription : string
}.

Definition start : View :=
  {| transcriptionChunks := []; correctedTranscription := "" |}.

Definition render (m : ChunkMap) : string :=
  let sortedChunks := map snd (sort m) in
  JsString.join " " sortedChunks.

(** One corrected_transcription message. *)
Definition onCorrected (chunkId : nat) (text : string) (v : View) : View :=
  if JsString.truthy text then
    let m := set chunkId text (transcriptionChunks v) in
    {| transcriptionChunks := m; correctedTranscription := render m |}
  else v.

(** The messages in the order of their arrival. *)
Definition receive (arrivals : list (nat * string)) (v : View) : View :=
  fold_left (fun v e => onCorrected (fst e) (snd e) v) arrivals v.

End Receiver.

(* ===================================================================== *)
(*  The WAV container                                                    *)
(* ===================================================================== *)

Lemma le32_sum (v : N) :
  (v <= 4294967295 ->
   v mod 256 + 256 * ((v / 256) mod 256) + 65536 * ((v / 65536) mod 256)
   + 16777216 * ((v / 16777216) mod 256) = v)%N.
Proof.
  intro H.
  change 65536%N with (256 * 256)%N at 2.
  change 16777216%N with (256 * 256 * 256)%N at 2.
  rewrite <- !N.Div0.div_div.
  lia.
Qed.

Definition tag (s : string) : list byte :=
  map byte_of_ascii (list_ascii_of_string s).

(** The 44 bytes that the writes of createWAVFromPCM leave in wavHeader. *)
Definition wavLayout (dataLength sampleRate : N) : list byte :=
  tag "RIFF" ++ Buffer.le_bytes32 (36 + dataLength) ++ tag "WAVE"
  ++ tag "fmt " ++ Buffer.le_bytes32 16 ++ Buffer.le_bytes16 1
  ++ Buffer.le_bytes16 1 ++ Buffer.le_bytes32 sampleRate
  ++ Buffer.le_bytes32 (sampleRate * 2) ++ Buffer.le_bytes16 2
  ++ Buffer.le_bytes16 16 ++ tag "data" ++ Buffer.le_bytes32 dataLength.

Lemma createWAVFromPCM_layout (pcm : list byte) :
  (36 + N.of_nat (List.length pcm) <= 4294967295)%N ->
  Relay.createWAVFromPCM (Base64.encode pcm) 16000
  = Some (Base64.encode (wavLayout (N.of_nat (List.length pcm)) 16000 ++ pcm)).
Proof.
  intros H. unfold Relay.createWAVFromPCM. rewrite decode_encode.
  assert (H40 : (N.of_nat (List.length pcm) <=? 4294967295)%N = true)
    by (apply N.leb_le; lia).
  apply N.leb_le in H.
  unfold Buffer.writeUInt32LE, Buffer.writeUInt16LE.
  rewrite H.
  change (4 + 4 <=? List.length (Buffer.write "RIFF" 0 (Buffer.alloc 44)))%nat
    with true.
  cbv beta iota delta [andb bind].
  rewrite H40.
  unfold Buffer.concat. cbn [List.concat]. rewrite app_nil_r.
  reflexivity.
Qed.

Lemma wavLayout_fields (dataLength : N) :
  (36 + dataLength <= 4294967295)%N ->
  List.length (wavLayout dataLength 16000) = 44
  /\ Buffer.slice (wavLayout dataLength 16000) 0 4 = tag "RIFF"
  /\ Buffer.readUInt32LE (wavLayout dataLength 16000) 4 = (36 + dataLength)%N
  /\ Buffer.slice (wavLayout dataLength 16000) 8 16 = tag "WAVEfmt "
  /\ Buffer.readUInt32LE (wavLayout dataLength 16000) 16 = 16%N
  /\ Buffer.readUInt16LE (wavLayout dataLength 16000) 20 = 1%N
  /\ Buffer.readUInt16LE (wavLayout dataLength 16000) 22 = 1%N
  /\ Buffer.readUInt32LE (wavLayout dataLength 16000) 24 = 16000%N
  /\ Buffer.readUInt32LE (wavLayout dataLength 16000) 28 = 32000%N
  /\ Buffer.readUInt16LE (wavLayout dataLength 16000) 32 = 2%N
  /\ Buffer.readUInt16LE (wavLayout dataLength 16000) 34 = 16%N
  /\ Buffer.slice (wavLayout dataLength 16000) 36 40 = tag "data"
  /\ Buffer.readUInt32LE (wavLayout dataLength 16000) 40 = dataLength.
Proof.
  intro H.
  repeat split; try reflexivity.
  - unfold Buffer.readUInt32LE, Buffer.byte_at.
    cbn [wavLayout tag map list_ascii_of_string app Buffer.le_bytes32 nth Nat.add].
    rewrite !to_N_byte_of_N. apply le32_sum. lia.
  - unfold Buffer.readUInt32LE, Buffer.byte_at.
    cbn [wavLayout tag map list_ascii_of_string app Buffer.le_bytes32
           Buffer.le_bytes16 nth Nat.add].
    rewrite !to_N_byte_of_N. apply le32_sum. lia.
Qed.








(** A known four-sample input and the bytes that come out. *)
Example wav_four_samples :
  option_map Base64.decode
    (Relay.createWAVFromPCM
       (Base64.encode [x01; x00; x02; x00; x03; x00; x04; x00]) 16000)
  = Some (tag "RIFF" ++ [x2c; x00; x00; x00] ++ tag "WAVEfmt "
          ++ [x10; x00; x00; x00; x01; x00; x01; x00;
              x80; x3e; x00; x00; x00; x7d; x00; x00;
              x02; x00; x10; x00]
          ++ tag "data" ++ [x08; x00; x00; x00]
          ++ [x01; x00; x02; x00; x03; x00; x04; x00]).
Proof. vm_compute. reflexivity. Qed.

(* ===================================================================== *)
(*  The PCM of a batch                                                   *)
(* ===================================================================== *)

(** part_003: decoding fragment by fragment gives the concatenation of
    the fragments' bytes, in order. *)
Lemma Relay_combinedBuffer_exact (fragments : list (list byte)) :
  Relay.combinedBuffer (map Base64.encode fragments) = List.concat fragments.
Proof.
  unfold Relay.combinedBuffer, Buffer.concat.
  rewrite map_map. f_equal.
  rewrite <- (map_id fragments) at 2.
  apply map_ext. intro f. apply decode_encode.
Qed.

(** The re-encoding of line 129 and the decoding of line 63 cancel. *)
Lemma Relay_pcmData_exact (fragments : list (list byte)) :
  Base64.decode
    (Base64.encode (Relay.combinedBuffer (map Base64.encode fragments)))
  = List.concat fragments.
Proof. rewrite decode_encode. apply Relay_combinedBuffer_exact. Qed.

(** The text of a fragment whose length is not a multiple of three ends
    in padding, and the decoder reads nothing behind padding. *)
Lemma sextets_behind_padding (f : list byte) (s : string) :
  List.length f mod 3 <> 0 ->
  Base64.sextets (Base64.encode f ++ s) = Base64.sextets (Base64.encode f).
Proof.
  induction f as [|a|a b|a b c l IH] using list_ind3; intro H.
  - now contradict H.
  - pose proof (Byte.to_N_bounded a) as Ha.
    cbn [Base64.encode String.append].
    rewrite !sextets_cons by lia. reflexivity.
  - pose proof (Byte.to_N_bounded a) as Ha.
    pose proof (Byte.to_N_bounded b) as Hb.
    cbn [Base64.encode String.append].
    rewrite !sextets_cons by lia. reflexivity.
  - pose proof (Byte.to_N_bounded a) as Ha.
    pose proof (Byte.to_N_bounded b) as Hb.
    pose proof (Byte.to_N_bounded c) as Hc.
    cbn [Base64.encode String.append].
    rewrite !sextets_cons by lia.
    rewrite IH; [reflexivity|].
    change (List.length (a :: b :: c :: l)) with (3 + List.length l) in H.
    rewrite Nat.add_comm in H.
    replace 3 with (1 * 3) in H at 1 by reflexivity.
    now rewrite Nat.Div0.mod_add in H.
Qed.

(** server.js: behind a first fragment that ends in padding, every
    further fragment of the batch is lost. *)
Lemma Backend_combinedBuffer_truncates (f : list byte) (rest : list string) :
  List.length f mod 3 <> 0 ->
  Backend.combinedBuffer (Base64.encode f :: rest) = f.
Proof.
  intro H. unfold Backend.combinedBuffer, Backend.combinedPCMBase64.
  destruct rest as [|r rest'].
  - apply decode_encode.
  - cbn [JsString.join]. unfold Base64.decode.
    rewrite sextets_behind_padding by assumption.
    apply decode_encode.
Qed.

Lemma encode_app (f g : list byte) :
  List.length f mod 3 = 0 ->
  Base64.encode (f ++ g) = (Base64.encode f ++ Base64.encode g)%string.
Proof.
  induction f as [|a|a b|a b c l IH] using list_ind3; intro H;
    try discriminate.
  - reflexivity.
  - change ((a :: b :: c :: l) ++ g) with (a :: b :: c :: (l ++ g)).
    cbn [Base64.encode String.append]. rewrite IH; [reflexivity|].
    change (List.length (a :: b :: c :: l)) with (3 + List.length l) in H.
    rewrite Nat.add_comm in H.
    replace 3 with (1 * 3) in H at 1 by reflexivity.
    now rewrite Nat.Div0.mod_add in H.
Qed.

Lemma join_encode (init : list (list byte)) (last : list byte) :
  Forall (fun f => List.length f mod 3 = 0) init ->
  JsString.join "" (map Base64.encode (init ++ [last]))
  = Base64.encode (List.concat (init ++ [last])).
Proof.
  induction 1 as [|f init Hf Hi IH].
  - cbn. now rewrite app_nil_r.
  - cbn [app map List.concat]. rewrite encode_app by assumption.
    rewrite <- IH.
    destruct (map Base64.encode (init ++ [last])) eqn:E.
    + destruct init; discriminate.
    + reflexivity.
Qed.

(** server.js is exact as long as no fragment but the last one ends in
    padding. *)
Lemma Backend_combinedBuffer_exact_unpadded
    (init : list (list byte)) (last : list byte) :
  Forall (fun f => List.length f mod 3 = 0) init ->
  Backend.combinedBuffer (map Base64.encode (init ++ [last]))
  = List.concat (init ++ [last]).
Proof.
  intro H. unfold Backend.combinedBuffer, Backend.combinedPCMBase64.
  rewrite join_encode by assumption. apply decode_encode.
Qed.

(** C6, at two fragments of one byte each: the join of server.js decodes
    to the first byte alone, the fragment-wise decoding of part_003 to
    both bytes in order. *)
Theorem C6_join_differs_from_concat :
  Backend.combinedBuffer ["AA=="; "AQ=="] = [x00]
  /\ Relay.combinedBuffer ["AA=="; "AQ=="] = [x00; x01]
  /\ Base64.decode "AA==" ++ Base64.decode "AQ==" = [x00; x01]
  /\ Backend.combinedBuffer ["AA=="; "AQ=="]
     <> Relay.combinedBuffer ["AA=="; "AQ=="].
Proof.
  repeat split; try (vm_compute; reflexivity).
  vm_compute. discriminate.
Qed.

(* ===================================================================== *)
(*  Texts: containment and letter case                                   *)
(* ===================================================================== *)

Lemma text_prefix_app (n post : JsText.t) : JsText.prefix n (n ++ post) = true.
Proof.
  induction n as [|a n IH]; [reflexivity|].
  cbn [app JsText.prefix]. now rewrite N.eqb_refl.
Qed.

Lemma text_prefix_split (n h : JsText.t) :
  JsText.prefix n h = true -> exists post, h = n ++ post.
Proof.
  revert h. induction n as [|a n IH]; intros h H.
  - now exists h.
  - destruct h as [|b h]; [discriminate|].
    cbn [JsText.prefix] in H. apply andb_true_iff in H as [E H].
    apply N.eqb_eq in E. subst b.
    destruct (IH h H) as [post ->]. now exists post.
Qed.

Lemma text_includes_app (pre n post : JsText.t) :
  JsText.includes n (pre ++ n ++ post) = true.
Proof.
  induction pre as [|c pre IH].
  - cbn [app]. destruct (n ++ post) eqn:E.
    + cbn [JsText.includes]. rewrite <- E, text_prefix_app. reflexivity.
    + cbn [JsText.includes]. rewrite <- E, text_prefix_app. reflexivity.
  - cbn [app JsText.includes]. rewrite IH. apply orb_true_r.
Qed.

Lemma toLowerCase_app (a b : JsText.t) :
  JsText.toLowerCase (a ++ b)
  = JsText.toLowerCase a ++ JsText.toLowerCase b.
Proof. unfold JsText.toLowerCase. apply flat_map_app. Qed.

(** [c] is [d] itself or, for a small letter [d] of a-z, its capital. *)
Definition letter_case_of (c d : N) : Prop :=
  c = d \/ ((97 <= d)%N /\ (d <= 122)%N /\ d = (c + 32)%N).

(** [a] is [b] up to the case of its letters. *)
Fixpoint case_variant (a b : JsText.t) : Prop :=
  match a, b with
  | [], [] => True
  | c :: a', d :: b' => letter_case_of c d /\ case_variant a' b'
  | _, _ => False
  end.

(** The text holds the needle in some letter case. *)
Definition contains_any_case (text needle : JsText.t) : Prop :=
  exists pre mid post, text = pre ++ mid ++ post /\ case_variant mid needle.

(** Small letters of a-z and the space: what the sentinel is made of. *)
Definition small_or_space (d : N) : bool :=
  (((97 <=? d) && (d <=? 122)) || (d =? 32))%N%bool.

(** A needle of small letters and spaces, without a k and not ending in
    an i: the two small letters that [toLowerCase] also makes of a code
    unit that is no capital of a-z. *)
Fixpoint plain_needle (needle : JsText.t) : bool :=
  match needle with
  | [] => true
  | d :: rest =>
      small_or_space d && negb (d =? 107)%N
      && negb ((d =? 105)%N && match rest with [] => true | _ => false end)
      && plain_needle rest
  end.

Lemma small_or_space_range (d : N) :
  small_or_space d = true ->
  ((97 <= d)%N /\ (d <= 122)%N) \/ d = 32%N.
Proof.
  unfold small_or_space. intro H.
  apply orb_true_iff in H as [H|H].
  - apply andb_true_iff in H as [A B]. apply N.leb_le in A, B. now left.
  - apply N.eqb_eq in H. now right.
Qed.

Ltac unit_cases u :=
  unfold JsText.lowerUnit;
  destruct ((65 <=? u)%N && (u <=? 90)%N)%bool eqn:?E1;
  [|destruct ((192 <=? u)%N && (u <=? 222)%N && negb (u =? 215)%N)%bool
      eqn:?E2;
    [|destruct (u =? 304)%N eqn:?E3; [|destruct (u =? 8490)%N eqn:?E4]]];
  repeat match goal with
         | H : (_ && _)%bool = true |- _ => apply andb_true_iff in H as [? ?]
         | H : (_ <=? _)%N = true |- _ => apply N.leb_le in H
         | H : (_ =? _)%N = true |- _ => apply N.eqb_eq in H
         | H : (_ =? _)%N = false |- _ => apply N.eqb_neq in H
         end.

Lemma lowerUnit_of_case (c d : N) :
  small_or_space d = true -> letter_case_of c d -> JsText.lowerUnit c = [d].
Proof.
  intros Hd Hc. apply small_or_space_range in Hd.
  unit_cases c.
  - destruct Hc as [->|(_ & _ & ->)]; [lia|reflexivity].
  - destruct Hc as [->|(A & B & ->)]; lia.
  - destruct Hc as [->|(A & B & ->)]; lia.
  - destruct Hc as [->|(A & B & ->)]; lia.
  - destruct Hc as [->|(A & B & ->)]; [reflexivity|].
    apply andb_false_iff in E1 as [E1|E1]; apply N.leb_gt in E1; lia.
Qed.

(** What [toLowerCase] makes of one code unit: one code unit, which, when
    it is a small letter other than k or the space, is the unit up to its
    case; or the i and the dot of U+0130. *)
Lemma lowerUnit_cases (u : N) :
  (exists d, JsText.lowerUnit u = [d]
             /\ (small_or_space d = true -> d <> 107%N -> letter_case_of u d))
  \/ JsText.lowerUnit u = [105%N; 775%N].
Proof.
  unit_cases u.
  - left. exists (u + 32)%N. split; [reflexivity|].
    intros _ _. right. repeat split; lia.
  - left. exists (u + 32)%N. split; [reflexivity|].
    intros Hd _. apply small_or_space_range in Hd. lia.
  - now right.
  - left. exists 107%N. split; [reflexivity|]. intros _ N. now contradict N.
  - left. exists u. split; [reflexivity|]. intros _ _. now left.
Qed.

Lemma toLowerCase_of_variant (mid needle : JsText.t) :
  plain_needle needle = true ->
  case_variant mid needle -> JsText.toLowerCase mid = needle.
Proof.
  revert needle. induction mid as [|c mid IH]; intros [|d needle] Hn H;
    try (now destruct H).
  cbn [plain_needle] in Hn.
  apply andb_true_iff in Hn as [Hn Hr].
  apply andb_true_iff in Hn as [Hn _].
  apply andb_true_iff in Hn as [Hd _].
  destruct H as [Hc H]. unfold JsText.toLowerCase in *. cbn [flat_map].
  now rewrite (lowerUnit_of_case c d Hd Hc), (IH needle Hr H).
Qed.

(** Where the small form of a text begins with the needle, the text
    begins with the needle in some letter case. *)
Lemma prefix_variant (needle text : JsText.t) :
  plain_needle needle = true ->
  JsText.prefix needle (JsText.toLowerCase text) = true ->
  exists mid post, text = mid ++ post /\ case_variant mid needle.
Proof.
  revert text. induction needle as [|d needle IH]; intros text Hn H.
  - exists [], text. now split.
  - cbn [plain_needle] in Hn.
    apply andb_true_iff in Hn as [Hn Hr].
    apply andb_true_iff in Hn as [Hn Hi].
    apply andb_true_iff in Hn as [Hd Hk].
    apply negb_true_iff, N.eqb_neq in Hk.
    destruct text as [|u text]; [discriminate|].
    unfold JsText.toLowerCase in H. cbn [flat_map] in H.
    destruct (lowerUnit_cases u) as [(e & E & C)|E]; rewrite E in H;
      cbn [app JsText.prefix] in H.
    + apply andb_true_iff in H as [De H]. apply N.eqb_eq in De. subst e.
      destruct (IH text Hr H) as (mid & post & -> & V).
      exists (u :: mid), post. split; [reflexivity|].
      split; [now apply C|exact V].
    + apply andb_true_iff in H as [De H]. apply N.eqb_eq in De. subst d.
      destruct needle as [|r needle]; [discriminate|].
      cbn [JsText.prefix] in H. apply andb_true_iff in H as [Dr _].
      apply N.eqb_eq in Dr. subst r.
      cbn [plain_needle] in Hr. discriminate.
Qed.

Lemma includes_variant (needle text : JsText.t) :
  plain_needle needle = true ->
  JsText.includes needle (JsText.toLowerCase text) = true ->
  contains_any_case text needle.
Proof.
  intros Hn. destruct needle as [|d needle].
  { intros _. exists [], [], text. now split. }
  assert (Hd : small_or_space d = true).
  { cbn [plain_needle] in Hn.
    apply andb_true_iff in Hn as [Hn _].
    apply andb_true_iff in Hn as [Hn _].
    now apply andb_true_iff in Hn as [Hn _]. }
  induction text as [|u text IH]; intro H.
  - discriminate.
  - assert (P : JsText.prefix (d :: needle) (JsText.toLowerCase (u :: text))
                = true
                \/ JsText.includes (d :: needle) (JsText.toLowerCase text)
                   = true).
    { unfold JsText.toLowerCase in *. cbn [flat_map] in *.
      destruct (lowerUnit_cases u) as [(e & E & _)|E]; rewrite E in *;
        cbn [app JsText.includes] in H.
      - apply orb_true_iff in H as [H|H]; auto.
      - apply orb_true_iff in H as [H|H]; [now left|].
        apply orb_true_iff in H as [H|H]; [|now right].
        cbn [JsText.prefix] in H. apply andb_true_iff in H as [D _].
        apply N.eqb_eq in D. subst d. discriminate. }
    destruct P as [P|P].
    + destruct (prefix_variant _ _ Hn P) as (mid & post & E & V).
      exists [], mid, post. now split.
    + destruct (IH P) as (pre & mid & post & -> & V).
      exists (u :: pre), mid, post. now split.
Qed.

(** The test of the code decides containment in any letter case. *)
Lemma includes_any_case (text needle : JsText.t) :
  plain_needle needle = true ->
  JsText.includes needle (JsText.toLowerCase text) = true
  <-> contains_any_case text needle.
Proof.
  intro Hn. split.
  - now apply includes_variant.
  - intros (pre & mid & post & -> & H).
    rewrite !toLowerCase_app, (toLowerCase_of_variant mid needle Hn H).
    apply text_includes_app.
Qed.

(** The search of line 161 does not depend on what [toLowerCase] makes
    of the code units that [JsText.lowerUnit] keeps.  [lowering text
    lowered] holds of every result that treats the code units below
    U+0080, U+0130 and U+212A as [JsText.lowerUnit] does and puts one
    code unit from U+0080 up in the place of every other one, as the
    case mapping of Unicode does. *)
Definition fixed_unit (u : N) : bool :=
  ((u <? 128) || (u =? 304) || (u =? 8490))%N%bool.

Inductive lowering : JsText.t -> JsText.t -> Prop :=
| lowering_nil : lowering [] []
| lowering_fixed (u : N) (text lowered : JsText.t) :
    fixed_unit u = true ->
    lowering text lowered ->
    lowering (u :: text) (JsText.lowerUnit u ++ lowered)
| lowering_other (u v : N) (text lowered : JsText.t) :
    fixed_unit u = false ->
    (128 <= v)%N ->
    lowering text lowered ->
    lowering (u :: text) (v :: lowered).

Definition ascii_needle (needle : JsText.t) : bool :=
  forallb (fun d => (d <? 128)%N) needle.

(** A code unit as a search for an ASCII needle sees it. *)
Definition mask (u : N) : N := if (u <? 128)%N then u else 128%N.

Lemma prefix_mask (needle hay : JsText.t) :
  ascii_needle needle = true ->
  JsText.prefix needle hay = JsText.prefix needle (map mask hay).
Proof.
  revert hay. induction needle as [|d needle IH]; intros hay A.
  - reflexivity.
  - cbn [ascii_needle forallb] in A. apply andb_true_iff in A as [D A].
    destruct hay as [|h hay]; [reflexivity|].
    cbn [map JsText.prefix]. rewrite (IH hay A). f_equal.
    apply N.ltb_lt in D. unfold mask.
    destruct (h <? 128)%N eqn:H; [reflexivity|].
    apply N.ltb_ge in H.
    transitivity false; [|symmetry]; apply N.eqb_neq; lia.
Qed.

Lemma includes_mask (needle hay : JsText.t) :
  ascii_needle needle = true ->
  JsText.includes needle hay = JsText.includes needle (map mask hay).
Proof.
  intro A. induction hay as [|h hay IH].
  - cbn [map JsText.includes]. now rewrite (prefix_mask needle [] A).
  - cbn [JsText.includes].
    rewrite (prefix_mask needle (h :: hay) A), IH. reflexivity.
Qed.

Lemma lowerUnit_other (u : N) :
  fixed_unit u = false ->
  exists v, JsText.lowerUnit u = [v] /\ (128 <= v)%N.
Proof.
  unfold fixed_unit, JsText.lowerUnit. intro F.
  apply orb_false_iff in F as [F K]. apply orb_false_iff in F as [F I].
  apply N.ltb_ge in F. rewrite I, K.
  destruct ((65 <=? u) && (u <=? 90))%N%bool eqn:A.
  { apply andb_true_iff in A as [_ A]. apply N.leb_le in A. lia. }
  destruct ((192 <=? u) && (u <=? 222) && negb (u =? 215))%N%bool.
  - exists (u + 32)%N. split; [reflexivity|lia].
  - exists u. split; [reflexivity|assumption].
Qed.

(** [JsText.toLowerCase] is one such result. *)
Lemma toLowerCase_lowering (text : JsText.t) :
  lowering text (JsText.toLowerCase text).
Proof.
  induction text as [|u text IH]; [constructor|].
  change (JsText.toLowerCase (u :: text))
    with (JsText.lowerUnit u ++ JsText.toLowerCase text).
  destruct (fixed_unit u) eqn:F.
  - now apply lowering_fixed.
  - destruct (lowerUnit_other u F) as (v & -> & V).
    now apply lowering_other.
Qed.

Lemma lowering_mask (text lowered : JsText.t) :
  lowering text lowered ->
  map mask lowered = map mask (JsText.toLowerCase text).
Proof.
  induction 1 as [|u text lowered F _ IH|u v text lowered F V _ IH].
  - reflexivity.
  - change (JsText.toLowerCase (u :: text))
      with (JsText.lowerUnit u ++ JsText.toLowerCase text).
    now rewrite !map_app, IH.
  - change (JsText.toLowerCase (u :: text))
      with (JsText.lowerUnit u ++ JsText.toLowerCase text).
    destruct (lowerUnit_other u F) as (w & -> & W).
    cbn [app map]. rewrite IH. f_equal.
    unfold mask.
    destruct (v <? 128)%N eqn:Hv; [apply N.ltb_lt in Hv; lia|].
    destruct (w <? 128)%N eqn:Hw; [apply N.ltb_lt in Hw; lia|].
    reflexivity.
Qed.

(** Every such result gives the search for an ASCII needle the same
    answer. *)
Lemma includes_any_lowering (needle text lowered : JsText.t) :
  ascii_needle needle = true ->
  lowering text lowered ->
  JsText.includes needle lowered
  = JsText.includes needle (JsText.toLowerCase text).
Proof.
  intros A L.
  rewrite (includes_mask needle lowered A),
          (includes_mask needle (JsText.toLowerCase text) A).
  now rewrite (lowering_mask text lowered L).
Qed.

(** So for the sentinel of line 161, on a text with a Greek capital
    (U+0391, which Unicode sends to U+03B1). *)
Example sentinel_search_greek :
  ascii_needle Relay.sentinel = true
  /\ JsText.includes Relay.sentinel
       ([945%N] ++ JsText.ofString " unclear audio")
     = JsText.includes Relay.sentinel
         (JsText.toLowerCase ([913%N] ++ JsText.ofString " Unclear audio")).
Proof. split; vm_compute; reflexivity. Qed.

(* ===================================================================== *)
(*  What a batch response sends to the client                            *)
(* ===================================================================== *)

(** The messages to the client among the effects, in order. *)
Fixpoint sent (effects : list Effect) : list ServerMessage :=
  match effects with
  | [] => []
  | WsSend m :: rest => m :: sent rest
  | _ :: rest => sent rest
  end.

(** The batch requests among the effects, in order. *)
Fixpoint requests (effects : list Effect) : list string :=
  match effects with
  | [] => []
  | GenerateContent wav :: rest => wav :: requests rest
  | _ :: rest => requests rest
  end.

(** The console lines among the effects, in order. *)
Fixpoint logged (effects : list Effect) : list string :=
  match effects with
  | [] => []
  | Log line :: rest => line :: logged rest
  | _ :: rest => logged rest
  end.

(** The inputs forwarded to the streaming session, in order. *)
Fixpoint forwarded (effects : list Effect) : list RealtimeInput :=
  match effects with
  | [] => []
  | SendRealtimeInput i :: rest => i :: forwarded rest
  | _ :: rest => forwarded rest
  end.

Lemma sent_app (a b : list Effect) : sent (a ++ b) = sent a ++ sent b.
Proof.
  induction a as [|e a IH]; [reflexivity|].
  destruct e; cbn [app sent]; now rewrite IH.
Qed.

Lemma requests_app (a b : list Effect) :
  requests (a ++ b) = requests a ++ requests b.
Proof.
  induction a as [|e a IH]; [reflexivity|].
  destruct e; cbn [app requests]; now rewrite IH.
Qed.

Definition Resume : Type :=
  Outcome -> nat -> PendingBatch -> State -> State * list Effect.

(** The sentinel as the literal of line 161. *)
Definition unclear_audio : JsText.t := JsText.ofString "unclear audio".

(** The filter on the text of a batch response, as a property of the
    code that runs after the await. *)
Definition sentinel_filtering (resume : Resume) : Prop :=
  forall (text : JsText.t) (now : nat) (p : PendingBatch) (s : State),
    let out := sent (snd (resume (Text text) now p s)) in
    (contains_any_case text unclear_audio -> out = [])
    /\ (JsText.trim text = [] -> out = [])
    /\ (~ contains_any_case text unclear_audio ->
        JsText.trim text <> [] ->
        out = [CorrectedTranscription (JsText.trim text)
                 (currentChunkId p) now]).

Lemma length_pos_nonempty {A : Type} (t : list A) :
  (0 <? List.length t)%nat = true <-> t <> [].
Proof.
  destruct t; cbn; split; try congruence; try discriminate; auto.
Qed.

Lemma truthy_nonempty (t : string) : JsString.truthy t = true <-> t <> "".
Proof.
  unfold JsString.truthy. rewrite negb_true_iff.
  split.
  - intros H ->. discriminate.
  - intro H. now apply String.eqb_neq.
Qed.

Lemma Relay_sentinel_filtering : sentinel_filtering Relay.resumeBatch.
Proof.
  intros text now p s. cbv zeta.
  unfold Relay.resumeBatch. cbn [snd].
  pose proof (includes_any_case text Relay.sentinel eq_refl) as Hinc.
  change Relay.sentinel with unclear_audio in *.
  destruct (JsText.truthy text
            && (0 <? List.length (JsText.trim text))%nat)%bool eqn:E.
  - apply andb_true_iff in E as [_ E]. apply length_pos_nonempty in E.
    destruct (JsText.includes unclear_audio (JsText.toLowerCase text))
      eqn:I.
    + repeat split; try reflexivity.
      intros Hn _. contradict Hn. now apply Hinc.
    + repeat split.
      * intro Hc. apply Hinc in Hc. congruence.
      * intro Ht. now contradict E.
  - assert (Ht : JsText.trim text = []).
    { apply andb_false_iff in E as [E|E].
      - destruct text; [reflexivity|discriminate].
      - destruct (JsText.trim text); [reflexivity|discriminate]. }
    repeat split. intros _ Hne. now contradict Hne.
Qed.

(** server.js sends every text that is not empty, trimmed. *)
Lemma Backend_resumeBatch_sent (text : JsText.t) (now : nat)
    (p : PendingBatch) (s : State) :
  sent (snd (Backend.resumeBatch (Text text) now p s))
  = match text with
    | [] => []
    | _ :: _ =>
        [CorrectedTranscription (JsText.trim text) (currentChunkId p) now]
    end.
Proof.
  unfold Backend.resumeBatch. cbn [snd]. now destruct text.
Qed.

(** C5, as the claim states it, fails on server.js: a response that is
    the sentinel is sent on to the client. *)
Lemma C5_backend_sends_sentinel : ~ sentinel_filtering Backend.resumeBatch.
Proof.
  intro H.
  destruct (H unclear_audio 0
              {| currentBuffer := []; currentChunkId := 0 |} initial)
    as [H1 _].
  assert (C : contains_any_case unclear_audio unclear_audio).
  { exists [], unclear_audio, [].
    split; [reflexivity|].
    cbn. repeat split; now left. }
  specialize (H1 C). vm_compute in H1. discriminate.
Qed.

(** server.js also sends a message for a text of white space alone: its
    text is empty. *)
Example Backend_sends_blank :
  sent (snd (Backend.resumeBatch (Text (JsText.ofString "  ")) 7
               {| currentBuffer := []; currentChunkId := 3 |} initial))
  = [CorrectedTranscription [] 3 7].
Proof. vm_compute. reflexivity. Qed.

(** C5, as amended.  In the server of part_003, for every text of a batch
    response (any sequence of UTF-16 code units): a text that holds the
    sentinel with each of its letters small or capital sends nothing; a
    text that is empty after trimming sends nothing; every other text
    sends exactly one corrected_transcription with the trimmed text and
    the sequence number of the batch; an undefined text and a failed
    request send nothing.  In server.js, which has no sentinel, every text
    that is not empty sends exactly one corrected_transcription with the
    trimmed text (which is empty for a text of white space), and the empty
    text, an undefined text and a failed request send nothing. *)
Theorem C5_response_filter :
  sentinel_filtering Relay.resumeBatch
  /\ (forall now p s,
         sent (snd (Relay.resumeBatch NoText now p s)) = []
         /\ sent (snd (Relay.resumeBatch Failed now p s)) = [])
  /\ (forall text now p s,
         sent (snd (Backend.resumeBatch (Text text) now p s))
         = match text with
           | [] => []
           | _ :: _ =>
               [CorrectedTranscription (JsText.trim text)
                  (currentChunkId p) now]
           end)
  /\ (forall now p s,
         sent (snd (Backend.resumeBatch NoText now p s)) = []
         /\ sent (snd (Backend.resumeBatch Failed now p s)) = []).
Proof.
  split; [exact Relay_sentinel_filtering|].
  split; [intros; split; reflexivity|].
  split; [exact Backend_resumeBatch_sent|].
  intros; split; reflexivity.
Qed.

(** "Unclear Audio." and, between two ideographic spaces (U+3000), a
    word in Cyrillic. *)
Definition capital_sentinel : JsText.t := JsText.ofString "Unclear Audio.".
Definition privet : JsText.t := [1087; 1088; 1080; 1074; 1077; 1090]%N.
Definition spaced_privet : JsText.t := [12288%N] ++ privet ++ [12288%N].

Lemma privet_has_no_sentinel : ~ contains_any_case spaced_privet unclear_audio.
Proof.
  intro C. apply (includes_any_case spaced_privet unclear_audio eq_refl) in C.
  vm_compute in C. discriminate.
Qed.

Lemma C5_response_filter_witness :
  (contains_any_case capital_sentinel unclear_audio
   /\ ~ contains_any_case spaced_privet unclear_audio
   /\ JsText.trim spaced_privet <> []
   /\ JsText.trim [12288%N; 8232%N; 65279%N] = [])
  /\ sent (snd (Relay.resumeBatch (Text capital_sentinel) 7
                  {| currentBuffer := []; currentChunkId := 3 |} initial))
     = []
  /\ sent (snd (Relay.resumeBatch (Text spaced_privet) 7
                  {| currentBuffer := []; currentChunkId := 3 |} initial))
     = [CorrectedTranscription privet 3 7]
  /\ sent (snd (Relay.resumeBatch (Text [12288%N; 8232%N; 65279%N]) 7
                  {| currentBuffer := []; currentChunkId := 3 |} initial))
     = []
  /\ sent (snd (Backend.resumeBatch (Text spaced_privet) 7
                  {| currentBuffer := []; currentChunkId := 3 |} initial))
     = [CorrectedTranscription privet 3 7].
Proof.
  assert (C : contains_any_case capital_sentinel unclear_audio).
  { exists [], (JsText.ofString "Unclear Audio"), (JsText.ofString ".").
    split; [reflexivity|].
    cbn. repeat split; try (now left); right; repeat split;
      vm_compute; congruence. }
  assert (T : JsText.trim spaced_privet <> []) by (vm_compute; discriminate).
  assert (W : JsText.trim [12288%N; 8232%N; 65279%N] = []) by reflexivity.
  split; [exact (conj C (conj privet_has_no_sentinel (conj T W)))|].
  destruct C5_response_filter as (F & _ & B & _).
  pose (p := {| currentBuffer := []; currentChunkId := 3 |}).
  split; [|split; [|split]].
  - destruct (F capital_sentinel 7 p initial) as [H _]. exact (H C).
  - destruct (F spaced_privet 7 p initial) as (_ & _ & H).
    exact (H privet_has_no_sentinel T).
  - destruct (F [12288%N; 8232%N; 65279%N] 7 p initial) as (_ & H & _).
    exact (H W).
  - exact (B spaced_privet 7 p initial).
Defined.

Example Relay_filters_mixed_case :
  sent (snd (Relay.resumeBatch
               (Text (JsText.ofString " Sorry, UnClear AUDIO here. ")) 7
               {| currentBuffer := []; currentChunkId := 3 |} initial))
  = [].
Proof. vm_compute. reflexivity. Qed.

Example Relay_sends_trimmed :
  sent (snd (Relay.resumeBatch (Text (JsText.ofString "  hello world  ")) 7
               {| currentBuffer := []; currentChunkId := 3 |} initial))
  = [CorrectedTranscription (JsText.ofString "hello world") 3 7].
Proof. vm_compute. reflexivity. Qed.

(** The capital I with a dot, U+0130, whose small form is an i and a
    dot above: no letter case of the sentinel, and the text is sent. *)
Example Relay_sends_dotted_capital_i :
  sent (snd (Relay.resumeBatch
               (Text (JsText.ofString "unclear aud" ++ [304%N; 111%N])) 7
               {| currentBuffer := []; currentChunkId := 3 |} initial))
  = [CorrectedTranscription
       (JsText.ofString "unclear aud" ++ [304%N; 111%N]) 3 7].
Proof. vm_compute. reflexivity. Qed.

(* ===================================================================== *)
(*  The window that is left when the client disconnects                  *)
(* ===================================================================== *)












Section BackendClose.

Variable wavefile : N -> N -> string -> list byte -> option Buffer.t.
Variable writeFileSync : nat -> Buffer.t -> bool.







End BackendClose.

(** A connection with an open session and two fragments in its window. *)
Definition two_in_window : State :=
  {| realtimeSession := Some LiveSession;
     audioBuffer := ["AAEC"; "AwQF"];
     batchInterval := Some Interval3000;
     transcriptionCounter := 0;
     isProcessingBatch := false;
     audioChunkCount := 2;
     listening := true;
     pending := [] |}.


(** A stand-in for the wavefile package that returns the samples. *)
Definition samples_only : N -> N -> string -> list byte -> option Buffer.t :=
  fun _ _ _ samples => Some samples.

(** A file system on which every write succeeds, and one on which none
    does. *)
Definition write_ok : nat -> Buffer.t -> bool := fun _ _ => true.
Definition write_fails : nat -> Buffer.t -> bool := fun _ _ => false.




(* ===================================================================== *)
(*  One batch request in flight                                          *)
(* ===================================================================== *)

(** The in-flight flag is set exactly while one activation of
    processBatchAudio waits for its request. *)
Definition single_flight (s : State) : Prop :=
  (isProcessingBatch s = true /\ List.length (pending s) = 1)
  \/ (isProcessingBatch s = false /\ pending s = []).

Definition settles (e : Event) : nat :=
  match e with
  | BatchSettled _ _ => 1
  | _ => 0
  end.

Fixpoint completions (events : list Event) : nat :=
  match events with
  | [] => 0
  | e :: rest => settles e + completions rest
  end.

Section ProcessBatch.

(** What the two versions of processBatchAudio have in common: the
    drain, then either a suspended activation with one request, or an
    exception that clears the flag. *)
Variable process : State -> State * list Effect.

Hypothesis process_skip :
  forall s, drain s = None -> process s = (s, []).

Hypothesis process_drained :
  forall s cur id s1,
    drain s = Some (cur, id, s1) ->
    (exists wav out,
        process s
        = (set_pending
             (pending s1 ++ [{| currentBuffer := cur;
                                currentChunkId := id |}]) s1, out)
        /\ requests out = [wav])
    \/ (exists out,
           process s = (set_isProcessingBatch false s1, out)
           /\ requests out = []).

Lemma process_single_flight (s : State) :
  single_flight s -> single_flight (fst (process s)).
Proof.
  intro I. destruct (drain s) as [[[cur id] s1]|] eqn:D.
  - destruct (drain_some _ _ _ _ D) as (F & _ & _ & _ & ->).
    destruct I as [[I _]|[_ I]]; [congruence|].
    destruct (process_drained _ _ _ _ D) as [(wav & out & -> & _)|(out & -> & _)];
      fields; rewrite ?I.
    + left. auto.
    + right. auto.
  - now rewrite (process_skip _ D).
Qed.

Lemma process_count (s : State) :
  List.length (pending s) + List.length (requests (snd (process s)))
  <= List.length (pending (fst (process s))).
Proof.
  destruct (drain s) as [[[cur id] s1]|] eqn:D.
  - destruct (drain_some _ _ _ _ D) as (_ & _ & _ & _ & ->).
    destruct (process_drained _ _ _ _ D) as [(wav & out & -> & R)|(out & -> & R)];
      fields; rewrite R; cbn [List.length]; rewrite ?length_app; cbn; lia.
  - rewrite (process_skip _ D). cbn. lia.
Qed.

(** While the flag is set a call does nothing at all. *)
Lemma process_guarded (s : State) :
  isProcessingBatch s = true -> process s = (s, []).
Proof.
  intro F. apply process_skip. unfold drain. now rewrite F.
Qed.

End ProcessBatch.

Lemma Relay_process_skip (s : State) :
  drain s = None -> Relay.processBatchAudio s = (s, []).
Proof. unfold Relay.processBatchAudio. now intros ->. Qed.

Lemma Relay_process_drained (s : State) cur id s1 :
  drain s = Some (cur, id, s1) ->
  (exists wav out,
      Relay.processBatchAudio s
      = (set_pending
           (pending s1 ++ [{| currentBuffer := cur; currentChunkId := id |}])
           s1, out)
      /\ requests out = [wav])
  \/ (exists out,
         Relay.processBatchAudio s = (set_isProcessingBatch false s1, out)
         /\ requests out = []).
Proof.
  intro D. unfold Relay.processBatchAudio. rewrite D.
  destruct (Relay.createWAVFromPCM _ 16000) as [wav|].
  - left. eexists. eexists. split; reflexivity.
  - right. eexists. split; reflexivity.
Qed.

Lemma Backend_process_skip wavefile writeFileSync (s : State) :
  drain s = None -> Backend.processBatchAudio wavefile writeFileSync s = (s, []).
Proof. unfold Backend.processBatchAudio. now intros ->. Qed.

Lemma Backend_process_drained wavefile writeFileSync (s : State) cur id s1 :
  drain s = Some (cur, id, s1) ->
  (exists wav out,
      Backend.processBatchAudio wavefile writeFileSync s
      = (set_pending
           (pending s1 ++ [{| currentBuffer := cur; currentChunkId := id |}])
           s1, out)
      /\ requests out = [wav])
  \/ (exists out,
         Backend.processBatchAudio wavefile writeFileSync s
         = (set_isProcessingBatch false s1, out)
         /\ requests out = []).
Proof.
  intro D. unfold Backend.processBatchAudio. rewrite D.
  destruct (Backend.createWAVFromPCM wavefile writeFileSync _ 16000 _) as [[wav saved]|] eqn:W.
  - left.
    unfold Backend.createWAVFromPCM in W.
    destruct (wavefile _ _ _ _); [|discriminate].
    cbn [bind] in W. destruct (writeFileSync _ _); [|discriminate].
    cbn [bind] in W. injection W as <- <-.
    eexists. eexists. split; reflexivity.
  - right. eexists. split; reflexivity.
Qed.

(** A handler that neither touches the flag or the suspended activations
    nor issues a request. *)
Definition quiet (r : State * list Effect) (s : State) : Prop :=
  pending (fst r) = pending s
  /\ isProcessingBatch (fst r) = isProcessingBatch s
  /\ requests (snd r) = [].

Lemma quiet_single_flight r s :
  quiet r s -> single_flight s -> single_flight (fst r).
Proof.
  intros (P & F & _). unfold single_flight. now rewrite P, F.
Qed.

Lemma quiet_count r s :
  quiet r s ->
  List.length (pending s) + List.length (requests (snd r))
  <= List.length (pending (fst r)).
Proof. intros (P & _ & R). rewrite P, R. cbn. lia. Qed.

Ltac quiet_handler :=
  unfold quiet; break_match; fields; cbn; repeat split;
  try reflexivity; try congruence.

Lemma Relay_quiet (e : Event) (s : State) :
  match e with
  | TimerTick | BatchSettled _ _ => True
  | _ => quiet (Relay.step e s) s
  end.
Proof.
  destruct e; try exact I; cbn [Relay.step];
    unfold Relay.connected, Relay.connectFailed, Relay.onopen,
      Relay.onmessage, Relay.onerror, Relay.onclose, Relay.wsMessage,
      Relay.audioSent, Relay.textSent, Relay.wsClose,
      Relay.clearBatchInterval, Relay.messageErrorEffects;
    quiet_handler.
Qed.

Lemma resume_single_flight (resume : Resume) (s : State) o now :
  (forall p s0, fst (resume o now p s0) = set_isProcessingBatch false s0) ->
  single_flight s ->
  single_flight
    (fst match pending s with
         | [] => (s, [])
         | p :: rest => resume o now p (set_pending rest s)
         end).
Proof.
  intros Hr I. destruct (pending s) as [|p rest] eqn:P; [exact I|].
  rewrite Hr. right. fields. split; [reflexivity|].
  destruct I as [[_ L]|[_ E]]; [|congruence].
  rewrite P in L. destruct rest; [reflexivity|discriminate].
Qed.

Lemma resume_count (resume : Resume) (s : State) o now :
  (forall p s0, fst (resume o now p s0) = set_isProcessingBatch false s0) ->
  (forall p s0, requests (snd (resume o now p s0)) = []) ->
  let r := match pending s with
           | [] => (s, [])
           | p :: rest => resume o now p (set_pending rest s)
           end in
  List.length (pending s) + List.length (requests (snd r))
  <= List.length (pending (fst r)) + 1.
Proof.
  intros Hr Hq. cbv zeta. destruct (pending s) as [|p rest] eqn:P.
  - cbn. rewrite P. cbn. lia.
  - rewrite Hr, Hq. fields. cbn. lia.
Qed.

Lemma Relay_resume_state o now p s :
  fst (Relay.resumeBatch o now p s) = set_isProcessingBatch false s.
Proof. reflexivity. Qed.

Lemma Relay_resume_requests o now p s :
  requests (snd (Relay.resumeBatch o now p s)) = [].
Proof.
  unfold Relay.resumeBatch. cbn [snd]. break_match; reflexivity.
Qed.

Lemma Backend_resume_state o now p s :
  fst (Backend.resumeBatch o now p s) = set_isProcessingBatch false s.
Proof. reflexivity. Qed.

Lemma Backend_resume_requests o now p s :
  requests (snd (Backend.resumeBatch o now p s)) = [].
Proof.
  unfold Backend.resumeBatch. cbn [snd]. break_match; reflexivity.
Qed.

Lemma Relay_step_single_flight (e : Event) (s : State) :
  single_flight s -> single_flight (fst (Relay.step e s)).
Proof.
  intro I. pose proof (Relay_quiet e s) as Q.
  destruct e; try (now apply (quiet_single_flight _ s)).
  - apply process_single_flight;
      [exact Relay_process_skip|exact Relay_process_drained|exact I].
  - apply (resume_single_flight Relay.resumeBatch);
      [intros; apply Relay_resume_state|exact I].
Qed.

Lemma Relay_step_count (e : Event) (s : State) :
  List.length (pending s) + List.length (requests (snd (Relay.step e s)))
  <= List.length (pending (fst (Relay.step e s))) + settles e.
Proof.
  pose proof (Relay_quiet e s) as Q.
  destruct e;
    try (pose proof (quiet_count _ s Q) as C;
         match goal with
         | |- context [settles ?e] => change (settles e) with 0
         end; lia).
  - change (settles TimerTick) with 0. rewrite Nat.add_0_r.
    apply (process_count Relay.processBatchAudio);
      [exact Relay_process_skip|exact Relay_process_drained].
  - apply (resume_count Relay.resumeBatch);
      intros; [apply Relay_resume_state|apply Relay_resume_requests].
Qed.

Lemma Relay_run_single_flight (events : list Event) (s : State) :
  single_flight s -> single_flight (fst (Relay.run events s)).
Proof.
  revert s. induction events as [|e events IH]; intros s I; [exact I|].
  cbn [Relay.run].
  pose proof (Relay_step_single_flight e s I) as I1.
  destruct (Relay.step e s) as [s1 out1]. cbn [fst] in I1.
  specialize (IH s1 I1).
  destruct (Relay.run events s1) as [s2 out2]. exact IH.
Qed.

Lemma Relay_run_count (events : list Event) (s : State) :
  List.length (pending s)
  + List.length (requests (snd (Relay.run events s)))
  <= List.length (pending (fst (Relay.run events s))) + completions events.
Proof.
  revert s. induction events as [|e events IH]; intro s.
  - cbn. lia.
  - cbn [Relay.run completions].
    pose proof (Relay_step_count e s) as C1.
    destruct (Relay.step e s) as [s1 out1]. cbn [fst snd] in C1.
    specialize (IH s1).
    destruct (Relay.run events s1) as [s2 out2]. cbn [fst snd] in *.
    rewrite requests_app, length_app. lia.
Qed.

Section BackendFlight.

Variable wavefile : N -> N -> string -> list byte -> option Buffer.t.
Variable writeFileSync : nat -> Buffer.t -> bool.

Lemma Backend_quiet (e : Event) (s : State) :
  match e with
  | TimerTick | BatchSettled _ _ | ClientClose => True
  | _ => quiet (Backend.step wavefile writeFileSync e s) s
  end.
Proof.
  destruct e; try exact I; cbn [Backend.step];
    unfold Backend.connected, Backend.connectFailed, Backend.onopen,
      Backend.onmessage, Backend.onerror, Backend.onclose,
      Backend.wsMessage, Backend.inputSent,
      Backend.clearBatchInterval, Backend.messageErrorEffects;
    quiet_handler.
Qed.

(** The 'close' handler: what processBatchAudio did, and nothing more
    to the flag, the activations and the requests. *)
Lemma Backend_wsClose_as_process (s : State) :
  exists r,
    (r = Backend.processBatchAudio wavefile writeFileSync s \/ r = (s, []))
    /\ pending (fst (Backend.wsClose wavefile writeFileSync s)) = pending (fst r)
    /\ isProcessingBatch (fst (Backend.wsClose wavefile writeFileSync s))
       = isProcessingBatch (fst r)
    /\ requests (snd (Backend.wsClose wavefile writeFileSync s)) = requests (snd r).
Proof.
  unfold Backend.wsClose.
  destruct (0 <? List.length (audioBuffer s))%nat.
  - exists (Backend.processBatchAudio wavefile writeFileSync s).
    split; [now left|].
    destruct (Backend.processBatchAudio wavefile writeFileSync s) as [s1 e1].
    unfold Backend.clearBatchInterval.
    destruct (batchInterval s1); fields; rewrite !requests_app;
      cbn [requests app]; destruct (realtimeSession s1);
      cbn [requests]; rewrite ?app_nil_r; auto.
  - exists (s, []). split; [now right|].
    unfold Backend.clearBatchInterval.
    destruct (batchInterval s); fields;
      destruct (realtimeSession s); cbn; auto.
Qed.

Lemma Backend_step_single_flight (e : Event) (s : State) :
  single_flight s -> single_flight (fst (Backend.step wavefile writeFileSync e s)).
Proof.
  intro I. pose proof (Backend_quiet e s) as Q.
  destruct e; try (now apply (quiet_single_flight _ s)).
  - apply process_single_flight;
      [exact (Backend_process_skip wavefile writeFileSync)
      |exact (Backend_process_drained wavefile writeFileSync)|exact I].
  - apply (resume_single_flight Backend.resumeBatch);
      [intros; apply Backend_resume_state|exact I].
  - cbn [Backend.step]. destruct (listening s); [|exact I].
    destruct (Backend_wsClose_as_process s) as (r & Hr & P & F & _).
    unfold single_flight. rewrite P, F.
    destruct Hr as [->| ->]; [|exact I].
    apply process_single_flight;
      [exact (Backend_process_skip wavefile writeFileSync)
      |exact (Backend_process_drained wavefile writeFileSync)|exact I].
Qed.

Lemma Backend_step_count (e : Event) (s : State) :
  List.length (pending s)
  + List.length (requests (snd (Backend.step wavefile writeFileSync e s)))
  <= List.length (pending (fst (Backend.step wavefile writeFileSync e s))) + settles e.
Proof.
  pose proof (Backend_quiet e s) as Q.
  destruct e;
    try (pose proof (quiet_count _ s Q) as C;
         match goal with
         | |- context [settles ?e] => change (settles e) with 0
         end; lia).
  - change (settles TimerTick) with 0. rewrite Nat.add_0_r.
    apply (process_count (Backend.processBatchAudio wavefile writeFileSync));
      [exact (Backend_process_skip wavefile writeFileSync)
      |exact (Backend_process_drained wavefile writeFileSync)].
  - apply (resume_count Backend.resumeBatch);
      intros; [apply Backend_resume_state|apply Backend_resume_requests].
  - change (settles ClientClose) with 0. rewrite Nat.add_0_r.
    cbn [Backend.step]. destruct (listening s); [|cbn; lia].
    destruct (Backend_wsClose_as_process s) as (r & Hr & P & _ & R).
    rewrite P, R.
    destruct Hr as [->| ->]; [|cbn; lia].
    apply (process_count (Backend.processBatchAudio wavefile writeFileSync));
      [exact (Backend_process_skip wavefile writeFileSync)
      |exact (Backend_process_drained wavefile writeFileSync)].
Qed.

Lemma Backend_run_single_flight (events : list Event) (s : State) :
  single_flight s -> single_flight (fst (Backend.run wavefile writeFileSync events s)).
Proof.
  revert s. induction events as [|e events IH]; intros s I; [exact I|].
  cbn [Backend.run].
  pose proof (Backend_step_single_flight e s I) as I1.
  destruct (Backend.step wavefile writeFileSync e s) as [s1 out1]. cbn [fst] in I1.
  specialize (IH s1 I1).
  destruct (Backend.run wavefile writeFileSync events s1) as [s2 out2]. exact IH.
Qed.

Lemma Backend_run_count (events : list Event) (s : State) :
  List.length (pending s)
  + List.length (requests (snd (Backend.run wavefile writeFileSync events s)))
  <= List.length (pending (fst (Backend.run wavefile writeFileSync events s)))
     + completions events.
Proof.
  revert s. induction events as [|e events IH]; intro s.
  - cbn. lia.
  - cbn [Backend.run completions].
    pose proof (Backend_step_count e s) as C1.
    destruct (Backend.step wavefile writeFileSync e s) as [s1 out1]. cbn [fst snd] in C1.
    specialize (IH s1).
    destruct (Backend.run wavefile writeFileSync events s1) as [s2 out2].
    cbn [fst snd] in *.
    rewrite requests_app, length_app. lia.
Qed.

End BackendFlight.

Lemma single_flight_bound (s : State) :
  single_flight s ->
  List.length (pending s) <= 1
  /\ (isProcessingBatch s = true <-> pending s <> []).
Proof.
  intros [[F L]|[F E]].
  - split; [lia|]. split; [|auto].
    intros _ E. rewrite E in L. discriminate.
  - rewrite E, F. split; [cbn; lia|]. split; [discriminate|congruence].
Qed.

Lemma single_flight_initial : single_flight initial.
Proof. right. split; reflexivity. Qed.

(** An audio message of the client. *)
Definition audio (a : string) : Event :=
  ClientMessage (Data (Some "audio") a "").

(** An interleaving of audio messages and timer ticks: [Some a] is an
    audio message, [None] a tick. *)
Definition interleaving (ops : list (option string)) : list Event :=
  map (fun op => match op with
                 | Some a => audio a
                 | None => TimerTick
                 end) ops.

Fixpoint fragments_of (ops : list (option string)) : list string :=
  match ops with
  | [] => []
  | Some a :: rest => a :: fragments_of rest
  | None :: rest => fragments_of rest
  end.

(** An audio message on a connection that listens and has its session:
    the fragment goes to the end of the window and to the session; the
    flag, the counter and the suspended activations stay. *)
Lemma Relay_audio_appends (a : string) (s : State) :
  listening s = true -> has_session s = true ->
  let r := Relay.step (audio a) s in
  audioBuffer (fst r) = audioBuffer s ++ [a]
  /\ forwarded (snd r) = [AudioInput a]
  /\ requests (snd r) = []
  /\ sent (snd r) = []
  /\ isProcessingBatch (fst r) = isProcessingBatch s
  /\ pending (fst r) = pending s
  /\ transcriptionCounter (fst r) = transcriptionCounter s
  /\ listening (fst r) = true
  /\ has_session (fst r) = true.
Proof.
  intros L H. cbv zeta. unfold audio. cbn [Relay.step].
  rewrite L. unfold Relay.wsMessage.
  change (is_type "audio" (Some "audio")) with true. rewrite H.
  cbn [andb]. fields.
  destruct (S (audioChunkCount s) mod 10 =? 0)%nat; cbn; auto 10.
Qed.

(** While a submission is in flight, any interleaving of audio messages
    and timer ticks only grows the window: no request is issued and the
    suspended activation stays the only one. *)
Lemma Relay_in_flight_accumulates (ops : list (option string)) (s : State) :
  isProcessingBatch s = true ->
  listening s = true -> has_session s = true ->
  let r := Relay.run (interleaving ops) s in
  audioBuffer (fst r) = audioBuffer s ++ fragments_of ops
  /\ requests (snd r) = []
  /\ isProcessingBatch (fst r) = true
  /\ pending (fst r) = pending s
  /\ transcriptionCounter (fst r) = transcriptionCounter s.
Proof.
  revert s. induction ops as [|op ops IH]; intros s F L H; cbv zeta.
  - cbn. rewrite app_nil_r. auto.
  - cbn [interleaving map Relay.run fragments_of].
    destruct op as [a|].
    + destruct (Relay_audio_appends a s L H)
        as (B1 & _ & R1 & _ & F1 & P1 & C1 & L1 & H1).
      fold (audio a).
      destruct (Relay.step (audio a) s) as [s1 out1]. cbn [fst snd] in *.
      rewrite F in F1.
      destruct (IH s1 F1 L1 H1) as (B2 & R2 & F2 & P2 & C2).
      fold (interleaving ops).
      destruct (Relay.run (interleaving ops) s1) as [s2 out2].
      cbn [fst snd] in *.
      rewrite requests_app, R1, R2, B2, B1, <- app_assoc, P2, C2.
      cbn. auto.
    + cbn [Relay.step].
      rewrite (process_guarded Relay.processBatchAudio Relay_process_skip s F).
      destruct (IH s F L H) as (B2 & R2 & F2 & P2 & C2).
      fold (interleaving ops).
      destruct (Relay.run (interleaving ops) s) as [s2 out2].
      cbn [fst snd] in *. auto.
Qed.

(** C1.  On every connection of either server, whatever the interleaving
    of events: at most one activation of processBatchAudio waits for its
    batch request, the in-flight flag is set exactly while one does, and
    the requests issued so far exceed the completed ones by at most one.
    A timer tick while the flag is set does nothing; the fragments that
    arrive meanwhile stay in the window and the first tick after the
    completion takes all of them into one batch.  The completion clears
    the flag whether the request succeeded or failed. *)
Theorem C1_single_submission_in_flight :
  (forall events,
      let r := Relay.run events initial in
      List.length (pending (fst r)) <= 1
      /\ (isProcessingBatch (fst r) = true <-> pending (fst r) <> [])
      /\ List.length (requests (snd r)) <= completions events + 1)
  /\ (forall wavefile writeFileSync events,
         let r := Backend.run wavefile writeFileSync events initial in
         List.length (pending (fst r)) <= 1
         /\ (isProcessingBatch (fst r) = true <-> pending (fst r) <> [])
         /\ List.length (requests (snd r)) <= completions events + 1)
  /\ (forall s,
         isProcessingBatch s = true ->
         Relay.step TimerTick s = (s, [])
         /\ forall wavefile writeFileSync, Backend.step wavefile writeFileSync TimerTick s = (s, []))
  /\ (forall ops s p o now,
         isProcessingBatch s = true -> pending s = [p] ->
         listening s = true -> has_session s = true ->
         let r := Relay.run (interleaving ops) s in
         let r' := Relay.step (BatchSettled o now) (fst r) in
         requests (snd r) = []
         /\ requests (snd r') = []
         /\ audioBuffer (fst r') = audioBuffer s ++ fragments_of ops
         /\ (audioBuffer s ++ fragments_of ops <> [] ->
             exists s1,
               drain (fst r')
               = Some (audioBuffer s ++ fragments_of ops,
                       transcriptionCounter s, s1)))
  /\ (forall o now p s,
         isProcessingBatch (fst (Relay.resumeBatch o now p s)) = false
         /\ isProcessingBatch (fst (Backend.resumeBatch o now p s)) = false).
Proof.
  split; [|split; [|split; [|split]]].
  - intros events. cbv zeta.
    pose proof (Relay_run_single_flight events initial single_flight_initial)
      as I.
    pose proof (Relay_run_count events initial) as C.
    destruct (single_flight_bound _ I) as [B E].
    cbn [initial pending List.length] in C.
    repeat split; try apply E; lia.
  - intros wavefile writeFileSync events. cbv zeta.
    pose proof (Backend_run_single_flight wavefile writeFileSync events initial
                  single_flight_initial) as I.
    pose proof (Backend_run_count wavefile writeFileSync events initial) as C.
    destruct (single_flight_bound _ I) as [B E].
    cbn [initial pending List.length] in C.
    repeat split; try apply E; lia.
  - intros s F. split; [|intros wavefile writeFileSync]; cbn [Relay.step Backend.step].
    + now apply (process_guarded Relay.processBatchAudio Relay_process_skip).
    + now apply (process_guarded (Backend.processBatchAudio wavefile writeFileSync)
                   (Backend_process_skip wavefile writeFileSync)).
  - intros ops s p o now F P L H. cbv zeta.
    destruct (Relay_in_flight_accumulates ops s F L H)
      as (B & R & F' & P' & C').
    destruct (Relay.run (interleaving ops) s) as [s1 out1].
    cbn [fst snd] in *.
    cbn [Relay.step]. rewrite P', P.
    rewrite Relay_resume_requests, Relay_resume_state. fields.
    repeat split; try assumption.
    intro Hne. unfold drain. fields. rewrite B, C'.
    destruct (audioBuffer s ++ fragments_of ops) eqn:E;
      [now contradict Hne|].
    cbn. eexists. reflexivity.
  - intros. split; reflexivity.
Qed.

(** A connection with one submission in flight. *)
Definition one_in_flight : State :=
  {| realtimeSession := Some LiveSession;
     audioBuffer := ["AAEC"];
     batchInterval := Some Interval3000;
     transcriptionCounter := 1;
     isProcessingBatch := true;
     audioChunkCount := 2;
     listening := true;
     pending := [{| currentBuffer := ["AwQF"]; currentChunkId := 0 |}] |}.

Lemma C1_single_submission_in_flight_witness :
  (isProcessingBatch one_in_flight = true
   /\ listening one_in_flight = true /\ has_session one_in_flight = true)
  /\ Relay.step TimerTick one_in_flight = (one_in_flight, [])
  /\ let r := Relay.run (interleaving [Some "BgcI"; None; Some "CQoL"; None])
                one_in_flight in
     let r' := Relay.step (BatchSettled Failed 9) (fst r) in
     requests (snd r) = []
     /\ requests (snd r') = []
     /\ audioBuffer (fst r') = ["AAEC"; "BgcI"; "CQoL"]
     /\ exists s1, drain (fst r') = Some (["AAEC"; "BgcI"; "CQoL"], 1, s1).
Proof.
  split; [repeat split|].
  destruct C1_single_submission_in_flight as (_ & _ & G & A & _).
  split.
  - apply (G one_in_flight). reflexivity.
  - cbv zeta.
    destruct (A [Some "BgcI"; None; Some "CQoL"; None] one_in_flight
                {| currentBuffer := ["AwQF"]; currentChunkId := 0 |}
                Failed 9 eq_refl eq_refl eq_refl eq_refl)
      as (R1 & R2 & B & D).
    repeat split; try assumption.
    apply D. discriminate.
Defined.

(* ===================================================================== *)
(*  Appends and the drain                                                *)
(* ===================================================================== *)

(** The window that a call of processBatchAudio takes; nothing when its
    guard returns at once. *)
Definition drained (s : State) : list string :=
  match drain s with
  | Some (currentBuffer, _, _) => currentBuffer
  | None => []
  end.

Section Window.

Variable step : Event -> State -> State * list Effect.

Fixpoint run_with (events : list Event) (s : State) : State :=
  match events with
  | [] => s
  | e :: rest => run_with rest (fst (step e s))
  end.

Definition ready (s : State) : Prop :=
  listening s = true /\ has_session s = true.

Hypothesis step_audio :
  forall a s, ready s ->
    audioBuffer (fst (step (audio a) s)) = audioBuffer s ++ [a]
    /\ ready (fst (step (audio a) s)).

Hypothesis step_tick :
  forall s, ready s ->
    audioBuffer (fst (step TimerTick s))
    = match drain s with
      | Some _ => []
      | None => audioBuffer s
      end
    /\ ready (fst (step TimerTick s)).

Lemma appends_accumulate (xs : list string) (s : State) :
  ready s ->
  audioBuffer (run_with (map audio xs) s) = audioBuffer s ++ xs
  /\ ready (run_with (map audio xs) s).
Proof.
  revert s. induction xs as [|x xs IH]; intros s R.
  - cbn. now rewrite app_nil_r.
  - cbn [map run_with].
    destruct (step_audio x s R) as [B R1].
    destruct (IH _ R1) as [B2 R2].
    rewrite B2, B, <- app_assoc. now split.
Qed.

(** N appends around one call of the drain: the taken window and the
    window that is left split the sequence of all fragments at one
    point, in the order of arrival. *)
Lemma drain_splits (xs ys : list string) (s : State) :
  ready s ->
  let s1 := run_with (map audio xs) s in
  let s3 := run_with (map audio ys) (fst (step TimerTick s1)) in
  let all := audioBuffer s ++ xs ++ ys in
  exists k,
    drained s1 = firstn k all
    /\ audioBuffer s3 = skipn k all
    /\ drained s1 ++ audioBuffer s3 = all
    /\ (k = List.length (audioBuffer s ++ xs) \/ k = 0).
Proof.
  intro R. cbv zeta.
  destruct (appends_accumulate xs s R) as [B1 R1].
  destruct (step_tick _ R1) as [B2 R2].
  destruct (appends_accumulate ys _ R2) as [B3 _].
  rewrite B3, B2. unfold drained.
  destruct (drain (run_with (map audio xs) s)) as [[[cur id] s']|] eqn:D.
  - apply drain_some in D as (_ & _ & -> & _ & _).
    exists (List.length (audioBuffer s ++ xs)).
    rewrite B1, app_assoc.
    rewrite firstn_app, Nat.sub_diag, firstn_all, app_nil_r.
    rewrite skipn_app, Nat.sub_diag, skipn_all. cbn [skipn app].
    auto.
  - exists 0. rewrite B1, app_assoc. cbn. auto.
Qed.

End Window.

Lemma Relay_process_window (s : State) :
  audioBuffer (fst (Relay.processBatchAudio s))
  = match drain s with
    | Some _ => []
    | None => audioBuffer s
    end
  /\ listening (fst (Relay.processBatchAudio s)) = listening s
  /\ has_session (fst (Relay.processBatchAudio s)) = has_session s.
Proof.
  destruct (drain s) as [[[cur id] s1]|] eqn:D.
  - destruct (Relay_process_drained s cur id s1 D)
      as [(wav & out & -> & _)|(out & -> & _)];
      apply drain_some in D as (_ & _ & _ & _ & ->); cbn; auto.
  - rewrite (Relay_process_skip s D). cbn. auto.
Qed.

Lemma Backend_process_window wavefile writeFileSync (s : State) :
  audioBuffer (fst (Backend.processBatchAudio wavefile writeFileSync s))
  = match drain s with
    | Some _ => []
    | None => audioBuffer s
    end
  /\ listening (fst (Backend.processBatchAudio wavefile writeFileSync s)) = listening s
  /\ has_session (fst (Backend.processBatchAudio wavefile writeFileSync s)) = has_session s.
Proof.
  destruct (drain s) as [[[cur id] s1]|] eqn:D.
  - destruct (Backend_process_drained wavefile writeFileSync s cur id s1 D)
      as [(wav & out & -> & _)|(out & -> & _)];
      apply drain_some in D as (_ & _ & _ & _ & ->); cbn; auto.
  - rewrite (Backend_process_skip wavefile writeFileSync s D). cbn. auto.
Qed.

Lemma Backend_audio_appends wavefile writeFileSync (a : string) (s : State) :
  listening s = true -> has_session s = true ->
  let r := Backend.step wavefile writeFileSync (audio a) s in
  audioBuffer (fst r) = audioBuffer s ++ [a]
  /\ forwarded (snd r) = [AudioInput a]
  /\ listening (fst r) = true
  /\ has_session (fst r) = true.
Proof.
  intros L H. cbv zeta. unfold audio. cbn [Backend.step].
  rewrite L. unfold Backend.wsMessage.
  change (is_type "audio" (Some "audio")) with true. rewrite H.
  cbn [andb]. fields.
  destruct (S (audioChunkCount s) mod 10 =? 0)%nat; cbn; auto 10.
Qed.

Lemma Relay_run_with (events : list Event) (s : State) :
  fst (Relay.run events s) = run_with Relay.step events s.
Proof.
  revert s. induction events as [|e events IH]; intro s; [reflexivity|].
  cbn [Relay.run run_with]. rewrite <- IH.
  destruct (Relay.step e s) as [s1 out1]. cbn [fst].
  destruct (Relay.run events s1). reflexivity.
Qed.

Lemma Backend_run_with wavefile writeFileSync (events : list Event) (s : State) :
  fst (Backend.run wavefile writeFileSync events s)
  = run_with (Backend.step wavefile writeFileSync) events s.
Proof.
  revert s. induction events as [|e events IH]; intro s; [reflexivity|].
  cbn [Backend.run run_with]. rewrite <- IH.
  destruct (Backend.step wavefile writeFileSync e s) as [s1 out1]. cbn [fst].
  destruct (Backend.run wavefile writeFileSync events s1). reflexivity.
Qed.

(** C2.  On a connection that listens and has its session, take N audio
    messages and one call of the drain (a timer tick) in any interleaving:
    [xs] arrive before the tick, [ys] after it.  The window the drain took
    and the window left at the end split the sequence of all fragments
    (those already waiting, then xs, then ys) at one point: every fragment
    is in exactly one of the two, by position, and both keep the order of
    arrival.  No fragment is lost and none is in both. *)
Theorem C2_no_loss_under_append_and_drain :
  (forall (xs ys : list string) (s : State),
      listening s = true -> has_session s = true ->
      let s1 := fst (Relay.run (map audio xs) s) in
      let s3 := fst (Relay.run (map audio ys)
                       (fst (Relay.step TimerTick s1))) in
      let all := audioBuffer s ++ xs ++ ys in
      exists k,
        drained s1 = firstn k all
        /\ audioBuffer s3 = skipn k all
        /\ drained s1 ++ audioBuffer s3 = all
        /\ (k = List.length (audioBuffer s ++ xs) \/ k = 0))
  /\ (forall wavefile writeFileSync (xs ys : list string) (s : State),
         listening s = true -> has_session s = true ->
         let s1 := fst (Backend.run wavefile writeFileSync (map audio xs) s) in
         let s3 := fst (Backend.run wavefile writeFileSync (map audio ys)
                          (fst (Backend.step wavefile writeFileSync TimerTick s1))) in
         let all := audioBuffer s ++ xs ++ ys in
         exists k,
           drained s1 = firstn k all
           /\ audioBuffer s3 = skipn k all
           /\ drained s1 ++ audioBuffer s3 = all
           /\ (k = List.length (audioBuffer s ++ xs) \/ k = 0)).
Proof.
  split.
  - intros xs ys s L H. cbv zeta. rewrite !Relay_run_with.
    apply (drain_splits Relay.step).
    + intros a s0 [L0 H0].
      destruct (Relay_audio_appends a s0 L0 H0)
        as (B & _ & _ & _ & _ & _ & _ & L1 & H1).
      split; [exact B|now split].
    + intros s0 [L0 H0]. cbn [Relay.step].
      destruct (Relay_process_window s0) as (B & L1 & H1).
      split; [exact B|]. split; congruence.
    + now split.
  - intros wavefile writeFileSync xs ys s L H. cbv zeta. rewrite !Backend_run_with.
    apply (drain_splits (Backend.step wavefile writeFileSync)).
    + intros a s0 [L0 H0].
      destruct (Backend_audio_appends wavefile writeFileSync a s0 L0 H0)
        as (B & _ & L1 & H1).
      split; [exact B|now split].
    + intros s0 [L0 H0]. cbn [Backend.step].
      destruct (Backend_process_window wavefile writeFileSync s0) as (B & L1 & H1).
      split; [exact B|]. split; congruence.
    + now split.
Qed.

Lemma C2_no_loss_under_append_and_drain_witness :
  (listening two_in_window = true /\ has_session two_in_window = true)
  /\ let s1 := fst (Relay.run (map audio ["BgcI"]) two_in_window) in
     let s3 := fst (Relay.run (map audio ["CQoL"; "DA0O"])
                      (fst (Relay.step TimerTick s1))) in
     let all := ["AAEC"; "AwQF"] ++ ["BgcI"] ++ ["CQoL"; "DA0O"] in
     exists k,
       drained s1 = firstn k all
       /\ audioBuffer s3 = skipn k all
       /\ drained s1 ++ audioBuffer s3 = all
       /\ (k = List.length (["AAEC"; "AwQF"] ++ ["BgcI"]) \/ k = 0).
Proof.
  split; [split; reflexivity|].
  destruct C2_no_loss_under_append_and_drain as [HR _].
  exact (HR ["BgcI"] ["CQoL"; "DA0O"] two_in_window eq_refl eq_refl).
Defined.

Example drain_takes_three :
  drained (fst (Relay.run (map audio ["BgcI"]) two_in_window))
  = ["AAEC"; "AwQF"; "BgcI"]
  /\ audioBuffer
       (fst (Relay.run (map audio ["CQoL"; "DA0O"])
               (fst (Relay.step TimerTick
                       (fst (Relay.run (map audio ["BgcI"]) two_in_window))))))
     = ["CQoL"; "DA0O"].
Proof. split; vm_compute; reflexivity. Qed.

(* ===================================================================== *)
(*  Sequence numbers and the reassembly at the receiver                  *)
(* ===================================================================== *)

Lemma insert_insert (x y : nat * string) (l : list (nat * string)) :
  fst x <> fst y ->
  Receiver.insert x (Receiver.insert y l)
  = Receiver.insert y (Receiver.insert x l).
Proof.
  intro N. induction l as [|z l IH].
  - cbn [Receiver.insert].
    destruct (fst x <=? fst y)%nat eqn:A, (fst y <=? fst x)%nat eqn:B;
      try reflexivity.
    + apply Nat.leb_le in A, B. lia.
    + apply Nat.leb_gt in A, B. lia.
  - cbn [Receiver.insert].
    destruct (fst y <=? fst z)%nat eqn:Y, (fst x <=? fst z)%nat eqn:X;
      cbn [Receiver.insert]; rewrite ?X, ?Y.
    + destruct (fst x <=? fst y)%nat eqn:A, (fst y <=? fst x)%nat eqn:B;
        try reflexivity.
      * apply Nat.leb_le in A, B. lia.
      * apply Nat.leb_gt in A, B. lia.
    + assert (A : (fst x <=? fst y)%nat = false).
      { apply Nat.leb_gt. apply Nat.leb_le in Y. apply Nat.leb_gt in X. lia. }
      now rewrite A.
    + assert (B : (fst y <=? fst x)%nat = false).
      { apply Nat.leb_gt. apply Nat.leb_le in X. apply Nat.leb_gt in Y. lia. }
      now rewrite B.
    + now rewrite IH.
Qed.

(** The sorted entries do not depend on the order of insertion into the
    Map, as long as the keys differ. *)
Lemma sort_permutation (l l' : list (nat * string)) :
  Permutation l l' -> NoDup (map fst l) -> Receiver.sort l = Receiver.sort l'.
Proof.
  unfold Receiver.sort.
  induction 1 as [|x l l' P IH|x y l|l l' l'' P1 IH1 P2 IH2]; intro D.
  - reflexivity.
  - cbn [fold_right map] in *. inversion D; subst. now rewrite IH.
  - cbn [fold_right map] in *. apply insert_insert.
    inversion D as [|? ? Hin _]; subst. intro E. apply Hin. left.
    now symmetry.
  - rewrite IH1 by assumption. apply IH2.
    apply (Permutation_NoDup (l := map fst l)); [|assumption].
    now apply Permutation_map.
Qed.

Lemma filter_permutation {A : Type} (f : A -> bool) (l l' : list A) :
  Permutation l l' -> Permutation (filter f l) (filter f l').
Proof.
  induction 1 as [|x l l' P IH|x y l|l l' l'' P1 IH1 P2 IH2].
  - constructor.
  - cbn [filter]. destruct (f x); [now constructor|assumption].
  - cbn [filter]. destruct (f x), (f y); try apply Permutation_refl.
    constructor.
  - now apply (Permutation_trans IH1).
Qed.

Lemma set_fresh (key : nat) (value : string) (m : Receiver.ChunkMap) :
  ~ In key (map fst m) -> Receiver.set key value m = m ++ [(key, value)].
Proof.
  induction m as [|[k v] m IH]; intro H; [reflexivity|].
  cbn [Receiver.set map fst In app] in *.
  destruct (k =? key)%nat eqn:E.
  - apply Nat.eqb_eq in E. contradict H. now left.
  - rewrite IH; [reflexivity|]. intro I. apply H. now right.
Qed.

Definition has_text (e : nat * string) : bool := JsString.truthy (snd e).

Lemma onCorrected_chunks (k : nat) (t : string) (v : Receiver.View) :
  ~ In k (map fst (Receiver.transcriptionChunks v)) ->
  Receiver.transcriptionChunks (Receiver.onCorrected k t v)
  = Receiver.transcriptionChunks v ++ filter has_text [(k, t)].
Proof.
  intro H. unfold Receiver.onCorrected, has_text. cbn [filter snd].
  destruct (JsString.truthy t).
  - cbn [Receiver.transcriptionChunks]. now apply set_fresh.
  - now rewrite app_nil_r.
Qed.

(** With keys that differ, the Map holds the messages with a text, in the
    order of their arrival. *)
Lemma receive_chunks (arrivals : list (nat * string)) (v : Receiver.View) :
  NoDup (map fst (Receiver.transcriptionChunks v) ++ map fst arrivals) ->
  Receiver.transcriptionChunks (Receiver.receive arrivals v)
  = Receiver.transcriptionChunks v ++ filter has_text arrivals.
Proof.
  unfold Receiver.receive.
  revert v. induction arrivals as [|[k t] arrivals IH]; intros v D.
  - cbn. now rewrite app_nil_r.
  - cbn [fold_left fst snd map] in *.
    assert (F : ~ In k (map fst (Receiver.transcriptionChunks v))).
    { apply NoDup_remove_2 in D. intro I. apply D.
      apply in_or_app. now left. }
    pose proof (onCorrected_chunks k t v F) as C.
    rewrite IH; rewrite C.
    + rewrite <- app_assoc. cbn [filter].
      destruct (has_text (k, t)); reflexivity.
    + rewrite map_app.
      change (filter has_text [(k, t)])
        with (if has_text (k, t) then [(k, t)] else []).
      destruct (has_text (k, t)); cbn [map fst].
      * rewrite <- app_assoc. exact D.
      * rewrite app_nil_r. now apply NoDup_remove_1 in D.
Qed.

(** What is shown is always the rendering of the Map. *)
Lemma receive_rendered (arrivals : list (nat * string)) (v : Receiver.View) :
  Receiver.correctedTranscription v
  = Receiver.render (Receiver.transcriptionChunks v) ->
  Receiver.correctedTranscription (Receiver.receive arrivals v)
  = Receiver.render (Receiver.transcriptionChunks (Receiver.receive arrivals v)).
Proof.
  unfold Receiver.receive.
  revert v. induction arrivals as [|[k t] arrivals IH]; intros v R;
    [exact R|].
  cbn [fold_left]. apply IH.
  unfold Receiver.onCorrected. cbn [fst snd].
  destruct (JsString.truthy t); [reflexivity|exact R].
Qed.

Lemma receive_independent_of_order (arrivals arrivals' : list (nat * string)) :
  NoDup (map fst arrivals) ->
  Permutation arrivals arrivals' ->
  Receiver.correctedTranscription (Receiver.receive arrivals' Receiver.start)
  = Receiver.correctedTranscription (Receiver.receive arrivals Receiver.start).
Proof.
  intros D P.
  assert (D' : NoDup (map fst arrivals')).
  { apply (Permutation_NoDup (l := map fst arrivals)); [|assumption].
    now apply Permutation_map. }
  rewrite !receive_rendered by reflexivity.
  rewrite !receive_chunks by assumption.
  cbn [Receiver.start Receiver.transcriptionChunks app].
  unfold Receiver.render. f_equal. f_equal.
  symmetry. apply sort_permutation.
  - now apply filter_permutation.
  - apply (NoDup_map_inv fst) in D as D0.
    clear - D. induction arrivals as [|[k t] l IH]; [constructor|].
    cbn [map fst filter] in *. inversion D as [|? ? Hin Hd]; subst.
    destruct (has_text (k, t)); [|now apply IH].
    cbn [map fst]. constructor; [|now apply IH].
    intro I. apply Hin. apply in_map_iff in I as ([k' t'] & E & I).
    apply filter_In in I as [I _]. apply in_map_iff. now exists (k', t').
Qed.

(** The sequence number of a corrected_transcription is the one its
    batch took at the drain. *)
Lemma corrected_carries_drain_number (resume : Resume) :
  resume = Relay.resumeBatch \/ resume = Backend.resumeBatch ->
  forall o now p s text chunkId timestamp,
    In (CorrectedTranscription text chunkId timestamp)
       (sent (snd (resume o now p s))) ->
    chunkId = currentChunkId p.
Proof.
  intros [-> | ->] o now p s text chunkId timestamp;
    [unfold Relay.resumeBatch, Relay.batchErrorLog
    |unfold Backend.resumeBatch, Backend.batchErrorLog]; cbn [snd];
    break_match; cbn [sent In]; intros H;
    repeat match goal with
           | H : _ \/ _ |- _ => destruct H
           | H : False |- _ => destruct H
           | H : CorrectedTranscription _ _ _ = _ |- _ =>
               injection H as _ <- _
           end; reflexivity.
Qed.

(** C7.  The sequence number of a batch is the value of the counter of
    the connection when the window is drained, and the drain adds one to
    the counter; the corrected_transcription of the batch carries that
    number, whenever its response arrives.  For messages whose sequence
    numbers differ, in whatever order they reach the receiver, storing
    each in the Map under its number and joining the entries in the order
    of the numbers shows the same text. *)
Theorem C7_reassembly_independent_of_arrival :
  (forall s currentBuffer currentChunkId s1,
      drain s = Some (currentBuffer, currentChunkId, s1) ->
      currentChunkId = transcriptionCounter s
      /\ transcriptionCounter s1 = S currentChunkId)
  /\ (forall o now p s text chunkId timestamp,
         (In (CorrectedTranscription text chunkId timestamp)
             (sent (snd (Relay.resumeBatch o now p s)))
          \/ In (CorrectedTranscription text chunkId timestamp)
               (sent (snd (Backend.resumeBatch o now p s)))) ->
         chunkId = currentChunkId p)
  /\ (forall arrivals arrivals' : list (nat * string),
         NoDup (map fst arrivals) ->
         Permutation arrivals arrivals' ->
         Receiver.correctedTranscription
           (Receiver.receive arrivals' Receiver.start)
         = Receiver.correctedTranscription
             (Receiver.receive arrivals Receiver.start)).
Proof.
  split; [|split].
  - intros s cur id s1 D.
    apply drain_some in D as (_ & _ & _ & -> & ->). cbn. auto.
  - intros o now p s text chunkId timestamp [H|H].
    + now apply (corrected_carries_drain_number Relay.resumeBatch
                   (or_introl eq_refl) o now p s text chunkId timestamp).
    + now apply (corrected_carries_drain_number Backend.resumeBatch
                   (or_intror eq_refl) o now p s text chunkId timestamp).
  - exact receive_independent_of_order.
Qed.

Lemma C7_reassembly_independent_of_arrival_witness :
  (NoDup (map fst [(1, "one"); (2, "two"); (3, "three")])
   /\ Permutation [(1, "one"); (2, "two"); (3, "three")]
        [(3, "three"); (1, "one"); (2, "two")])
  /\ Receiver.correctedTranscription
       (Receiver.receive [(3, "three"); (1, "one"); (2, "two")] Receiver.start)
     = Receiver.correctedTranscription
         (Receiver.receive [(1, "one"); (2, "two"); (3, "three")]
            Receiver.start).
Proof.
  assert (D : NoDup (map fst [(1, "one"); (2, "two"); (3, "three")])).
  { cbn. repeat constructor; cbn; intuition discriminate. }
  assert (P : Permutation [(1, "one"); (2, "two"); (3, "three")]
                [(3, "three"); (1, "one"); (2, "two")]).
  { apply Permutation_sym.
    apply (Permutation_cons_app [(1, "one"); (2, "two")] [] (3, "three")).
    rewrite app_nil_r. apply Permutation_refl. }
  split; [now split|].
  destruct C7_reassembly_independent_of_arrival as (_ & _ & H).
  exact (H _ _ D P).
Defined.

Example reassembly_out_of_order :
  Receiver.correctedTranscription
    (Receiver.receive [(3, "three"); (1, "one"); (2, "two")] Receiver.start)
  = "one two three".
Proof. vm_compute. reflexivity. Qed.

(* ===================================================================== *)
(*  Messages of the client                                               *)
(* ===================================================================== *)

Definition audio_message (a text : string) : Event :=
  ClientMessage (Data (Some "audio") a text).

(** C10.  An audio message that arrives while realtimeSession is null
    (the handlers are not registered yet, or the open failed) is dropped
    whole, in either server: nothing is added to the window, nothing is
    forwarded to the session, nothing is sent to the client, no batch
    request is issued, and the state of the connection (window, counter,
    flag, timer) is what it was. *)
Theorem C10_audio_without_session_is_dropped
    (s : State) (a text : string) :
  realtimeSession s = None ->
  (let r := Relay.step (audio_message a text) s in
   fst r = s /\ sent (snd r) = [] /\ forwarded (snd r) = []
   /\ requests (snd r) = [])
  /\ (forall wavefile writeFileSync,
         let r := Backend.step wavefile writeFileSync (audio_message a text) s in
         fst r = s /\ sent (snd r) = [] /\ forwarded (snd r) = []
         /\ requests (snd r) = []).
Proof.
  intro N. unfold audio_message. cbn [Relay.step Backend.step].
  assert (H : has_session s = false) by (unfold has_session; now rewrite N).
  unfold Relay.wsMessage, Backend.wsMessage.
  change (is_type "audio" (Some "audio")) with true.
  change (is_type "text" (Some "audio")) with false.
  rewrite H. cbn [andb negb].
  split; [|intros wavefile writeFileSync]; destruct (listening s); cbn; auto.
Qed.

(** The connection after a failed open, with its handlers registered. *)
Definition open_failed : State := set_listening true initial.

Lemma C10_audio_without_session_is_dropped_witness :
  realtimeSession open_failed = None
  /\ Relay.step (audio_message "AAEC" "") open_failed
     = (open_failed,
        [Log "Received audio but no real-time session available"])
  /\ fst (Relay.step (audio_message "AAEC" "") initial) = initial.
Proof.
  split; [reflexivity|].
  destruct (C10_audio_without_session_is_dropped open_failed "AAEC" ""
              eq_refl) as [(S1 & _) _].
  destruct (C10_audio_without_session_is_dropped initial "AAEC" ""
              eq_refl) as [(S2 & _) _].
  split; [reflexivity|exact S2].
Defined.


Definition logged_and_ignored (s : State) (r : State * list Effect) : Prop :=
  logged (snd r) <> [] /\ sent (snd r) = [] /\ fst r = s.



(** The other half of the claim about parsed messages fails as well, in
    both servers: the text [null] parses, the read of its type throws,
    and the handler answers with an error message. *)
Lemma null_message_is_answered
    (wavefile : N -> N -> string -> list byte -> option Buffer.t)
    (writeFileSync : nat -> Buffer.t -> bool) (s : State) (error : string) :
  listening s = true ->
  ~ logged_and_ignored s (Relay.step (ClientMessage (NoProperties error)) s)
  /\ ~ logged_and_ignored s
        (Backend.step wavefile writeFileSync
           (ClientMessage (NoProperties error)) s).
Proof.
  intro L. cbn [Relay.step Backend.step]. rewrite L.
  split; intros (_ & S & _); discriminate S.
Qed.



(* ===================================================================== *)
(*  A failed open of the streaming session                               *)
(* ===================================================================== *)

Definition is_corrected (m : ServerMessage) : bool :=
  match m with
  | CorrectedTranscription _ _ _ => true
  | _ => false
  end.

Definition is_connected (e : Event) : bool :=
  match e with
  | LiveConnected => true
  | _ => false
  end.

Definition is_open (e : Event) : bool :=
  match e with
  | LiveOpen => true
  | _ => false
  end.

(** The claim, as a property of the event loop: after a failed open the
    error is sent and the handlers of the client are in place, an audio
    fragment that arrives is in the window, and the batch timer runs. *)
Definition batch_path_survives_failed_open
    (run : list Event -> State -> State * list Effect) : Prop :=
  forall message a,
    let r1 := run [LiveConnectFailed message] initial in
    let r2 := run [LiveConnectFailed message; audio a] initial in
    (exists m, sent (snd r1) = [ErrorMessage m])
    /\ listening (fst r1) = true
    /\ In a (audioBuffer (fst r2))
    /\ batchInterval (fst r1) <> None.

(** C8, as the claim states it, fails: after the failed open the
    fragment is not in the window and no timer was started. *)
Lemma C8_batch_path_dead_after_failed_open :
  ~ batch_path_survives_failed_open Relay.run.
Proof.
  intro H. destruct (H "timeout" "AAEC") as (_ & _ & I & _).
  vm_compute in I. exact I.
Qed.

(** Without a session, with an empty window and nothing in flight. *)
Definition batch_path_idle (s : State) : Prop :=
  realtimeSession s = None /\ audioBuffer s = [] /\ pending s = [].

Lemma filter_corrected_app (a b : list ServerMessage) :
  filter is_corrected (a ++ b) = filter is_corrected a ++ filter is_corrected b.
Proof. apply filter_app. Qed.

Ltac idle_handler :=
  unfold batch_path_idle; break_match; fields; cbn;
  try match goal with
      | H : (_ && false)%bool = true |- _ =>
          rewrite andb_false_r in H; discriminate H
      end;
  repeat split; try reflexivity; try congruence; try discriminate.

Lemma Relay_step_idle (e : Event) (s : State) :
  is_connected e = false ->
  batch_path_idle s ->
  batch_path_idle (fst (Relay.step e s))
  /\ requests (snd (Relay.step e s)) = []
  /\ filter is_corrected (sent (snd (Relay.step e s))) = []
  /\ (is_open e = false ->
      batchInterval s = None ->
      batchInterval (fst (Relay.step e s)) = None).
Proof.
  intros C (N & B & P).
  assert (H : has_session s = false) by (unfold has_session; now rewrite N).
  destruct e; try discriminate; cbn [Relay.step];
    try rewrite P;
    unfold Relay.connectFailed, Relay.onopen, Relay.onmessage,
      Relay.onerror, Relay.onclose, Relay.wsMessage, Relay.audioSent,
      Relay.textSent, Relay.wsClose, Relay.clearBatchInterval,
      Relay.messageErrorEffects, Relay.processBatchAudio, drain;
    rewrite ?H, ?B, ?andb_false_r; cbn [List.length Nat.eqb Nat.ltb Nat.leb
                                          orb andb negb];
    rewrite ?orb_true_r; idle_handler.
Qed.

Lemma Backend_step_idle wavefile writeFileSync (e : Event) (s : State) :
  is_connected e = false ->
  batch_path_idle s ->
  batch_path_idle (fst (Backend.step wavefile writeFileSync e s))
  /\ requests (snd (Backend.step wavefile writeFileSync e s)) = []
  /\ filter is_corrected (sent (snd (Backend.step wavefile writeFileSync e s))) = []
  /\ (is_open e = false ->
      batchInterval s = None ->
      batchInterval (fst (Backend.step wavefile writeFileSync e s)) = None).
Proof.
  intros C (N & B & P).
  assert (H : has_session s = false) by (unfold has_session; now rewrite N).
  destruct e; try discriminate; cbn [Backend.step];
    try rewrite P;
    unfold Backend.connectFailed, Backend.onopen, Backend.onmessage,
      Backend.onerror, Backend.onclose, Backend.wsMessage, Backend.inputSent,
      Backend.wsClose, Backend.clearBatchInterval,
      Backend.messageErrorEffects, Backend.processBatchAudio, drain;
    rewrite ?H, ?B, ?N, ?andb_false_r; cbn [List.length Nat.eqb Nat.ltb Nat.leb
                                              orb andb negb];
    rewrite ?orb_true_r; idle_handler.
Qed.

Section IdleRuns.

Variable step : Event -> State -> State * list Effect.
Variable run : list Event -> State -> State * list Effect.

Hypothesis run_nil : forall s, run [] s = (s, []).
Hypothesis run_cons :
  forall e rest s,
    run (e :: rest) s
    = (fst (run rest (fst (step e s))),
       snd (step e s) ++ snd (run rest (fst (step e s)))).

Hypothesis step_idle :
  forall e s,
    is_connected e = false ->
    batch_path_idle s ->
    batch_path_idle (fst (step e s))
    /\ requests (snd (step e s)) = []
    /\ filter is_corrected (sent (snd (step e s))) = []
    /\ (is_open e = false ->
        batchInterval s = None ->
        batchInterval (fst (step e s)) = None).

(** While ai.live.connect has not resolved, the batch path stays idle
    whatever happens. *)
Lemma run_idle (events : list Event) (s : State) :
  forallb (fun e => negb (is_connected e)) events = true ->
  batch_path_idle s ->
  batch_path_idle (fst (run events s))
  /\ requests (snd (run events s)) = []
  /\ filter is_corrected (sent (snd (run events s))) = []
  /\ (forallb (fun e => negb (is_open e)) events = true ->
      batchInterval s = None ->
      batchInterval (fst (run events s)) = None).
Proof.
  revert s. induction events as [|e events IH]; intros s C I.
  - rewrite run_nil. cbn. auto.
  - cbn [forallb] in C. apply andb_true_iff in C as [C1 C2].
    apply negb_true_iff in C1.
    destruct (step_idle e s C1 I) as (I1 & R1 & S1 & T1).
    destruct (IH _ C2 I1) as (I2 & R2 & S2 & T2).
    rewrite run_cons. cbn [fst snd].
    rewrite requests_app, sent_app, filter_corrected_app, R1, R2, S1, S2.
    repeat split; try assumption; try apply I2.
    intros O T. cbn [forallb] in O. apply andb_true_iff in O as [O1 O2].
    apply negb_true_iff in O1. auto.
Qed.

End IdleRuns.

Lemma Relay_run_cons (e : Event) (rest : list Event) (s : State) :
  Relay.run (e :: rest) s
  = (fst (Relay.run rest (fst (Relay.step e s))),
     snd (Relay.step e s) ++ snd (Relay.run rest (fst (Relay.step e s)))).
Proof.
  cbn [Relay.run]. destruct (Relay.step e s) as [s1 out1]. cbn [fst snd].
  now destruct (Relay.run rest s1).
Qed.

Lemma Backend_run_cons wavefile writeFileSync (e : Event) (rest : list Event) (s : State) :
  Backend.run wavefile writeFileSync (e :: rest) s
  = (fst (Backend.run wavefile writeFileSync rest (fst (Backend.step wavefile writeFileSync e s))),
     snd (Backend.step wavefile writeFileSync e s)
       ++ snd (Backend.run wavefile writeFileSync rest (fst (Backend.step wavefile writeFileSync e s)))).
Proof.
  cbn [Backend.run]. destruct (Backend.step wavefile writeFileSync e s) as [s1 out1].
  cbn [fst snd]. now destruct (Backend.run wavefile writeFileSync rest s1).
Qed.

Lemma batch_path_idle_initial : batch_path_idle initial.
Proof. repeat split. Qed.

(** C8, as amended.  When the open of the streaming session fails, the
    server sends one error message to the client and registers the
    handlers of the client socket; nothing is closed.  The batch path does
    not go on: realtimeSession stays null, so in every run of the
    connection in which ai.live.connect does not resolve with a session
    the window stays empty (each audio message is dropped), no batch
    request is issued and no corrected_transcription is sent; and the
    batch timer, which only the onopen callback starts, is not started by
    the failure. *)
Theorem C8_failed_open :
  (forall message s,
      Relay.step (LiveConnectFailed message) s
      = (set_listening true s,
         [Log "Failed to connect to Gemini Live:"; Log "Error details:";
          Log "Stack trace:";
          WsSend (ErrorMessage
                    ("Failed to connect to Gemini Live: " ++ message))])
      /\ forall wavefile writeFileSync,
           Backend.step wavefile writeFileSync (LiveConnectFailed message) s
           = (set_listening true s,
              [Log "Failed to connect to Gemini:";
               WsSend (ErrorMessage
                         ("Failed to connect to Gemini: " ++ message))]))
  /\ (forall events,
         forallb (fun e => negb (is_connected e)) events = true ->
         let r := Relay.run events initial in
         realtimeSession (fst r) = None
         /\ audioBuffer (fst r) = []
         /\ requests (snd r) = []
         /\ filter is_corrected (sent (snd r)) = []
         /\ (forallb (fun e => negb (is_open e)) events = true ->
             batchInterval (fst r) = None))
  /\ (forall wavefile writeFileSync events,
         forallb (fun e => negb (is_connected e)) events = true ->
         let r := Backend.run wavefile writeFileSync events initial in
         realtimeSession (fst r) = None
         /\ audioBuffer (fst r) = []
         /\ requests (snd r) = []
         /\ filter is_corrected (sent (snd r)) = []
         /\ (forallb (fun e => negb (is_open e)) events = true ->
             batchInterval (fst r) = None)).
Proof.
  split; [|split].
  - intros message s. split; [|intros wavefile writeFileSync]; reflexivity.
  - intros events C. cbv zeta.
    destruct (run_idle Relay.step Relay.run (fun s => eq_refl) Relay_run_cons
                Relay_step_idle events initial C batch_path_idle_initial)
      as ((N & B & _) & R & S & T).
    repeat split; try assumption. intro O. now apply T.
  - intros wavefile writeFileSync events C. cbv zeta.
    destruct (run_idle (Backend.step wavefile writeFileSync) (Backend.run wavefile writeFileSync)
                (fun s => eq_refl) (Backend_run_cons wavefile writeFileSync)
                (Backend_step_idle wavefile writeFileSync) events initial C
                batch_path_idle_initial)
      as ((N & B & _) & R & S & T).
    repeat split; try assumption. intro O. now apply T.
Qed.

Lemma C8_failed_open_witness :
  forallb (fun e => negb (is_connected e))
    [LiveConnectFailed "timeout"; audio "AAEC"; TimerTick; audio "AwQF";
     TimerTick] = true
  /\ let r := Relay.run
                [LiveConnectFailed "timeout"; audio "AAEC"; TimerTick;
                 audio "AwQF"; TimerTick] initial in
     realtimeSession (fst r) = None
     /\ audioBuffer (fst r) = []
     /\ requests (snd r) = []
     /\ filter is_corrected (sent (snd r)) = []
     /\ batchInterval (fst r) = None.
Proof.
  split; [reflexivity|].
  destruct C8_failed_open as (_ & H & _).
  destruct (H [LiveConnectFailed "timeout"; audio "AAEC"; TimerTick;
               audio "AwQF"; TimerTick] eq_refl) as (N & B & R & S & T).
  cbv zeta.
  exact (conj N (conj B (conj R (conj S (T eq_refl))))).
Defined.

(* ===================================================================== *)
(*  More of the two servers                                              *)
(* ===================================================================== *)

Lemma forwarded_app (a b : list Effect) :
  forwarded (a ++ b) = forwarded a ++ forwarded b.
Proof.
  induction a as [|e a IH]; [reflexivity|].
  destruct e; cbn [app forwarded]; now rewrite IH.
Qed.

(** createWAVFromPCM of part_003 on any string at all: what the decoder
    makes of the string is wrapped; nothing is rejected. *)
Lemma createWAVFromPCM_any_string (pcmBase64Data : string) :
  (36 + N.of_nat (List.length (Base64.decode pcmBase64Data)) <= 4294967295)%N ->
  Relay.createWAVFromPCM pcmBase64Data 16000
  = Some (Base64.encode
            (wavLayout (N.of_nat (List.length (Base64.decode pcmBase64Data)))
               16000 ++ Base64.decode pcmBase64Data)).
Proof.
  intros H. unfold Relay.createWAVFromPCM.
  set (pcm := Base64.decode pcmBase64Data) in *.
  assert (H40 : (N.of_nat (List.length pcm) <=? 4294967295)%N = true)
    by (apply N.leb_le; lia).
  apply N.leb_le in H.
  unfold Buffer.writeUInt32LE, Buffer.writeUInt16LE.
  rewrite H.
  change (4 + 4 <=? List.length (Buffer.write "RIFF" 0 (Buffer.alloc 44)))%nat
    with true.
  cbv beta iota delta [andb bind].
  rewrite H40.
  unfold Buffer.concat. cbn [List.concat]. rewrite app_nil_r.
  reflexivity.
Qed.

(** A run of audio messages on a connection that listens and has its
    session. *)
Lemma Relay_run_audio (xs : list string) (s : State) :
  listening s = true -> has_session s = true ->
  let r := Relay.run (map audio xs) s in
  audioBuffer (fst r) = audioBuffer s ++ xs
  /\ forwarded (snd r) = map AudioInput xs
  /\ requests (snd r) = []
  /\ sent (snd r) = []
  /\ isProcessingBatch (fst r) = isProcessingBatch s
  /\ pending (fst r) = pending s
  /\ transcriptionCounter (fst r) = transcriptionCounter s
  /\ listening (fst r) = true
  /\ has_session (fst r) = true.
Proof.
  revert s. induction xs as [|x xs IH]; intros s L H; cbv zeta.
  - cbn. rewrite app_nil_r. auto 10.
  - cbn [map]. rewrite Relay_run_cons. cbn [fst snd].
    destruct (Relay_audio_appends x s L H)
      as (B1 & W1 & R1 & S1 & F1 & P1 & C1 & L1 & H1).
    destruct (IH _ L1 H1) as (B2 & W2 & R2 & S2 & F2 & P2 & C2 & L2 & H2).
    rewrite forwarded_app, requests_app, sent_app.
    rewrite B2, B1, W1, W2, R1, R2, S1, S2, F2, F1, P2, P1, C2, C1.
    rewrite <- app_assoc. cbn. auto 10.
Qed.

(** X1.  On a connection of part_003 that listens, has its session, an
    empty window and no submission in flight: after the audio messages of
    the fragments [fs] (each the base64 text of its bytes) and one timer
    tick, exactly one batch request has been issued.  Its payload is the
    base64 text of the 44-byte header for the total length followed by the
    bytes of all fragments in the order of arrival; the window is empty
    again, the flag is set and the activation holds the fragments and the
    sequence number the counter had.  Every fragment was also forwarded to
    the streaming session, in order. *)
Theorem X1_batch_request_content
    (fs : list (list byte)) (s : State) :
  fs <> [] ->
  listening s = true -> has_session s = true ->
  isProcessingBatch s = false -> audioBuffer s = [] ->
  (36 + N.of_nat (List.length (List.concat fs)) <= 4294967295)%N ->
  let r1 := Relay.run (map audio (map Base64.encode fs)) s in
  let r := Relay.step TimerTick (fst r1) in
  forwarded (snd r1) = map AudioInput (map Base64.encode fs)
  /\ requests (snd r)
     = [Base64.encode
          (wavLayout (N.of_nat (List.length (List.concat fs))) 16000
             ++ List.concat fs)]
  /\ audioBuffer (fst r) = []
  /\ isProcessingBatch (fst r) = true
  /\ transcriptionCounter (fst r) = S (transcriptionCounter s)
  /\ pending (fst r)
     = pending s ++ [{| currentBuffer := map Base64.encode fs;
                        currentChunkId := transcriptionCounter s |}].
Proof.
  intros Hne L H F B Hsize. cbv zeta.
  destruct (Relay_run_audio (map Base64.encode fs) s L H)
    as (B1 & W1 & _ & _ & F1 & P1 & C1 & _ & _).
  destruct (Relay.run (map audio (map Base64.encode fs)) s) as [s1 out1].
  cbn [fst snd] in *. split; [exact W1|].
  rewrite B in B1. cbn [app] in B1. rewrite F in F1.
  cbn [Relay.step]. unfold Relay.processBatchAudio, drain.
  rewrite F1, B1.
  destruct fs as [|f fs']; [now contradict Hne|].
  cbn [map List.length Nat.eqb orb]. fields. rewrite B1.
  change (Base64.encode f :: map Base64.encode fs')
    with (map Base64.encode (f :: fs')).
  rewrite Relay_combinedBuffer_exact.
  rewrite <- (decode_encode (List.concat (f :: fs'))) in Hsize.
  rewrite (createWAVFromPCM_any_string _ Hsize), decode_encode.
  fields. cbn [requests]. rewrite P1, C1. auto 10.
Qed.

(** Ten fragments of three bytes each. *)
Definition ten_fragments : list (list byte) :=
  map (fun b => [b; x00; x01])
    [x00; x01; x02; x03; x04; x05; x06; x07; x08; x09].

(** The connection once the session is open and connected. *)
Definition active : State :=
  fst (Relay.run [LiveOpen; LiveConnected] initial).

Lemma X1_batch_request_content_witness :
  let r1 := Relay.run (map audio (map Base64.encode ten_fragments)) active in
  let r := Relay.step TimerTick (fst r1) in
  List.length (requests (snd r)) = 1
  /\ option_map Base64.decode (hd_error (requests (snd r)))
     = Some (wavLayout 30 16000 ++ List.concat ten_fragments)
  /\ audioBuffer (fst r) = [].
Proof.
  cbv zeta.
  assert (Hne : ten_fragments <> []) by discriminate.
  assert (Hsize : (36 + N.of_nat (List.length (List.concat ten_fragments))
                   <= 4294967295)%N) by (vm_compute; discriminate).
  destruct (X1_batch_request_content ten_fragments active Hne
              eq_refl eq_refl eq_refl eq_refl Hsize)
    as (_ & R & B & _).
  rewrite R, B. cbn [List.length hd_error option_map].
  rewrite decode_encode. repeat split.
Defined.

(** The sequence numbers of the corrected_transcription messages among
    the effects, in order. *)
Fixpoint corrected_ids (effects : list Effect) : list nat :=
  match effects with
  | [] => []
  | WsSend (CorrectedTranscription _ chunkId _) :: rest =>
      chunkId :: corrected_ids rest
  | _ :: rest => corrected_ids rest
  end.

Lemma corrected_ids_app (a b : list Effect) :
  corrected_ids (a ++ b) = corrected_ids a ++ corrected_ids b.
Proof.
  induction a as [|e a IH]; [reflexivity|].
  destruct e as [m| | | | | | |]; try destruct m; cbn [app corrected_ids];
    now rewrite IH.
Qed.

(** What one turn of the event loop can do to the batch path: nothing;
    a drain (that suspends an activation, or fails before its request);
    or the completion of the oldest activation, which sends at most the
    message of that activation. *)
Definition batch_step (s s' : State) (ids : list nat) : Prop :=
  (pending s' = pending s
   /\ isProcessingBatch s' = isProcessingBatch s
   /\ transcriptionCounter s' = transcriptionCounter s
   /\ ids = [])
  \/ (isProcessingBatch s = false
      /\ audioBuffer s <> []
      /\ transcriptionCounter s' = S (transcriptionCounter s)
      /\ ids = []
      /\ ((isProcessingBatch s' = true
           /\ pending s'
              = pending s ++ [{| currentBuffer := audioBuffer s;
                                 currentChunkId := transcriptionCounter s |}])
          \/ (isProcessingBatch s' = false /\ pending s' = pending s)))
  \/ (exists p rest,
         pending s = p :: rest
         /\ pending s' = rest
         /\ isProcessingBatch s' = false
         /\ transcriptionCounter s' = transcriptionCounter s
         /\ (ids = [] \/ ids = [currentChunkId p])).

Ltac batch_nothing :=
  left; break_match; fields; cbn; repeat split; reflexivity.

Lemma Relay_process_batch_step (s : State) :
  batch_step s (fst (Relay.processBatchAudio s))
    (corrected_ids (snd (Relay.processBatchAudio s))).
Proof.
  unfold Relay.processBatchAudio.
  destruct (drain s) as [[[cur id] s1]|] eqn:D.
  - apply drain_some in D as (F & Hne & -> & -> & ->).
    right; left.
    destruct (Relay.createWAVFromPCM _ 16000); fields; cbn [corrected_ids app];
      repeat split; auto.
  - left. cbn. auto.
Qed.

Lemma Backend_process_batch_step wavefile writeFileSync (s : State) :
  batch_step s (fst (Backend.processBatchAudio wavefile writeFileSync s))
    (corrected_ids (snd (Backend.processBatchAudio wavefile writeFileSync s))).
Proof.
  unfold Backend.processBatchAudio.
  destruct (drain s) as [[[cur id] s1]|] eqn:D.
  - apply drain_some in D as (F & Hne & -> & -> & ->).
    right; left.
    unfold Backend.createWAVFromPCM.
    destruct (wavefile _ _ _ _); cbn [bind];
      [destruct (writeFileSync _ _); cbn [bind]|]; fields;
      cbn [corrected_ids app]; repeat split; auto.
  - left. cbn. auto.
Qed.

Lemma resume_batch_step (resume : Resume) (s : State) o now :
  (forall p s0, fst (resume o now p s0) = set_isProcessingBatch false s0) ->
  (forall p s0,
      corrected_ids (snd (resume o now p s0)) = []
      \/ corrected_ids (snd (resume o now p s0)) = [currentChunkId p]) ->
  let r := match pending s with
           | [] => (s, [])
           | p :: rest => resume o now p (set_pending rest s)
           end in
  batch_step s (fst r) (corrected_ids (snd r)).
Proof.
  intros Hs Hi. cbv zeta. destruct (pending s) as [|p rest] eqn:P.
  - left. cbn. auto.
  - right; right. exists p, rest. rewrite Hs. fields.
    repeat split; auto.
Qed.

Lemma Relay_resume_ids o now p s :
  corrected_ids (snd (Relay.resumeBatch o now p s)) = []
  \/ corrected_ids (snd (Relay.resumeBatch o now p s)) = [currentChunkId p].
Proof.
  unfold Relay.resumeBatch, Relay.batchErrorLog. cbn [snd].
  break_match; cbn; auto.
Qed.

Lemma Backend_resume_ids o now p s :
  corrected_ids (snd (Backend.resumeBatch o now p s)) = []
  \/ corrected_ids (snd (Backend.resumeBatch o now p s)) = [currentChunkId p].
Proof.
  unfold Backend.resumeBatch, Backend.batchErrorLog. cbn [snd].
  break_match; cbn; auto.
Qed.

Lemma Relay_batch_step (e : Event) (s : State) :
  batch_step s (fst (Relay.step e s)) (corrected_ids (snd (Relay.step e s))).
Proof.
  destruct e; cbn [Relay.step];
    try (unfold Relay.connected, Relay.connectFailed, Relay.onopen,
           Relay.onmessage, Relay.onerror, Relay.onclose, Relay.wsMessage,
           Relay.audioSent, Relay.textSent, Relay.wsClose,
           Relay.clearBatchInterval, Relay.messageErrorEffects;
         batch_nothing).
  - apply Relay_process_batch_step.
  - apply (resume_batch_step Relay.resumeBatch);
      intros; [apply Relay_resume_state|apply Relay_resume_ids].
Qed.

Lemma Backend_batch_step wavefile writeFileSync (e : Event) (s : State) :
  batch_step s (fst (Backend.step wavefile writeFileSync e s))
    (corrected_ids (snd (Backend.step wavefile writeFileSync e s))).
Proof.
  destruct e; cbn [Backend.step];
    try (unfold Backend.connected, Backend.connectFailed, Backend.onopen,
           Backend.onmessage, Backend.onerror, Backend.onclose,
           Backend.wsMessage, Backend.inputSent,
           Backend.clearBatchInterval, Backend.messageErrorEffects;
         batch_nothing).
  - apply Backend_process_batch_step.
  - apply (resume_batch_step Backend.resumeBatch);
      intros; [apply Backend_resume_state|apply Backend_resume_ids].
  - destruct (listening s); [|left; cbn; auto].
    pose proof (Backend_process_batch_step wavefile writeFileSync s) as B.
    unfold Backend.wsClose.
    destruct (0 <? List.length (audioBuffer s))%nat.
    + destruct (Backend.processBatchAudio wavefile writeFileSync s) as [s1 e1].
      cbn [fst snd] in B.
      unfold Backend.clearBatchInterval.
      destruct (batchInterval s1); fields;
        rewrite !corrected_ids_app; cbn [corrected_ids app];
        destruct (realtimeSession s1); cbn [corrected_ids];
        rewrite ?app_nil_r; exact B.
    + unfold Backend.clearBatchInterval. batch_nothing.
Qed.

(** Numbers that go up, all from [lo] on. *)
Fixpoint increasing_from (lo : nat) (l : list nat) : Prop :=
  match l with
  | [] => True
  | x :: rest => lo <= x /\ increasing_from (S x) rest
  end.

Lemma increasing_from_weaken (lo lo' : nat) (l : list nat) :
  lo' <= lo -> increasing_from lo l -> increasing_from lo' l.
Proof.
  destruct l as [|x l]; [auto|]. cbn. intros H [A B]. split; [lia|exact B].
Qed.

Lemma increasing_from_sorted (lo : nat) (l : list nat) :
  increasing_from lo l -> StronglySorted lt l /\ Forall (le lo) l.
Proof.
  revert lo. induction l as [|x l IH]; intros lo H.
  - split; constructor.
  - destruct H as [A B]. destruct (IH _ B) as [S1 F1].
    split.
    + constructor; [exact S1|].
      apply (Forall_impl (P := le (S x))); [intros; lia|exact F1].
    + constructor; [exact A|].
      apply (Forall_impl (P := le (S x))); [intros; lia|exact F1].
Qed.

(** The batch path between two turns: either nothing is in flight, or
    one activation is, with a window that is not empty and a sequence
    number below the counter.  [lo] bounds from below the numbers still to
    be sent. *)
Definition batch_invariant (lo : nat) (s : State) : Prop :=
  (isProcessingBatch s = false /\ pending s = []
   /\ lo <= transcriptionCounter s)
  \/ (isProcessingBatch s = true
      /\ exists p, pending s = [p]
                   /\ lo <= currentChunkId p
                   /\ currentChunkId p < transcriptionCounter s
                   /\ currentBuffer p <> []).

Lemma batch_step_invariant (lo : nat) (s s' : State) (ids : list nat) :
  batch_invariant lo s -> batch_step s s' ids ->
  exists lo',
    batch_invariant lo' s'
    /\ forall rest, increasing_from lo' rest -> increasing_from lo (ids ++ rest).
Proof.
  intros I [(P & F & C & ->)|[(F & Hne & C & -> & D)|(p & rest & P & P' & F & C & D)]].
  - exists lo. split; [|auto].
    unfold batch_invariant. now rewrite P, F, C.
  - exists lo. split; [|auto].
    destruct I as [(_ & P & B)|(F' & _)]; [|congruence].
    destruct D as [[F1 P1]|[F1 P1]].
    + right. split; [exact F1|]. eexists. rewrite P1, P. cbn [app].
      split; [reflexivity|]. cbn [currentChunkId currentBuffer].
      repeat split; try assumption; lia.
    + left. rewrite P1, P, C. repeat split; auto.
  - destruct I as [(_ & P0 & _)|(_ & q & P0 & B1 & B2 & _)]; [congruence|].
    rewrite P in P0. injection P0 as -> ->.
    destruct D as [-> | ->].
    + exists lo. split; [|auto]. left. rewrite C. repeat split; auto. lia.
    + exists (S (currentChunkId q)). split.
      * left. rewrite C. repeat split; auto.
      * intros l H. cbn. auto.
Qed.

Section BatchTrace.

Variable step : Event -> State -> State * list Effect.
Variable run : list Event -> State -> State * list Effect.

Hypothesis run_nil : forall s, run [] s = (s, []).
Hypothesis run_cons :
  forall e rest s,
    run (e :: rest) s
    = (fst (run rest (fst (step e s))),
       snd (step e s) ++ snd (run rest (fst (step e s)))).
Hypothesis step_batch :
  forall e s,
    batch_step s (fst (step e s)) (corrected_ids (snd (step e s))).

Lemma run_batch_invariant (events : list Event) (lo : nat) (s : State) :
  batch_invariant lo s ->
  increasing_from lo (corrected_ids (snd (run events s)))
  /\ exists lo', batch_invariant lo' (fst (run events s)).
Proof.
  revert lo s. induction events as [|e events IH]; intros lo s I.
  - rewrite run_nil. cbn. split; [exact Logic.I|now exists lo].
  - rewrite run_cons. cbn [fst snd]. rewrite corrected_ids_app.
    destruct (batch_step_invariant lo s _ _ I (step_batch e s))
      as (lo1 & I1 & Hinc).
    destruct (IH lo1 _ I1) as [Inc Ex].
    split; [now apply Hinc|exact Ex].
Qed.

End BatchTrace.

Lemma batch_invariant_initial : batch_invariant 0 initial.
Proof. left. repeat split. cbn. lia. Qed.

(** X2.  On every connection of either server, whatever happens: an
    activation of processBatchAudio that waits for its request holds a
    window that is not empty, and a timer tick on an empty window does
    nothing at all.  No batch request is ever made for an empty window. *)
Theorem X2_no_empty_batch :
  (forall events,
      Forall (fun p => currentBuffer p <> [])
        (pending (fst (Relay.run events initial))))
  /\ (forall wavefile writeFileSync events,
         Forall (fun p => currentBuffer p <> [])
           (pending (fst (Backend.run wavefile writeFileSync events initial))))
  /\ (forall s,
         audioBuffer s = [] ->
         Relay.step TimerTick s = (s, [])
         /\ forall wavefile writeFileSync, Backend.step wavefile writeFileSync TimerTick s = (s, [])).
Proof.
  split; [|split].
  - intro events.
    destruct (run_batch_invariant Relay.step Relay.run (fun s => eq_refl)
                Relay_run_cons Relay_batch_step events 0 initial
                batch_invariant_initial)
      as [_ (lo & [(_ & P & _)|(_ & p & P & _ & _ & N)])];
      rewrite P; repeat constructor. exact N.
  - intros wavefile writeFileSync events.
    destruct (run_batch_invariant (Backend.step wavefile writeFileSync)
                (Backend.run wavefile writeFileSync) (fun s => eq_refl)
                (Backend_run_cons wavefile writeFileSync) (Backend_batch_step wavefile writeFileSync)
                events 0 initial batch_invariant_initial)
      as [_ (lo & [(_ & P & _)|(_ & p & P & _ & _ & N)])];
      rewrite P; repeat constructor. exact N.
  - intros s B.
    assert (D : drain s = None).
    { unfold drain. rewrite B. cbn. now rewrite orb_true_r. }
    split; [|intros wavefile writeFileSync]; cbn [Relay.step Backend.step].
    + now apply Relay_process_skip.
    + now apply Backend_process_skip.
Qed.

Lemma X2_no_empty_batch_witness :
  audioBuffer active = []
  /\ Relay.step TimerTick active = (active, []).
Proof.
  split; [reflexivity|].
  destruct X2_no_empty_batch as (_ & _ & H).
  destruct (H active eq_refl) as [R _]. exact R.
Defined.

(** X3.  On every connection of either server, whatever the order of
    events: the sequence numbers of the corrected_transcription messages
    go strictly up in the order in which the messages are sent.  No number
    is sent twice and no message overtakes one of an earlier batch. *)
Theorem X3_sequence_numbers_increase :
  (forall events,
      StronglySorted lt (corrected_ids (snd (Relay.run events initial))))
  /\ (forall wavefile writeFileSync events,
         StronglySorted lt
           (corrected_ids (snd (Backend.run wavefile writeFileSync events initial)))).
Proof.
  split.
  - intro events.
    destruct (run_batch_invariant Relay.step Relay.run (fun s => eq_refl)
                Relay_run_cons Relay_batch_step events 0 initial
                batch_invariant_initial) as [Inc _].
    now apply increasing_from_sorted in Inc.
  - intros wavefile writeFileSync events.
    destruct (run_batch_invariant (Backend.step wavefile writeFileSync)
                (Backend.run wavefile writeFileSync) (fun s => eq_refl)
                (Backend_run_cons wavefile writeFileSync) (Backend_batch_step wavefile writeFileSync)
                events 0 initial batch_invariant_initial) as [Inc _].
    now apply increasing_from_sorted in Inc.
Qed.

Example two_batches_in_order :
  corrected_ids
    (snd (Relay.run
            [LiveOpen; LiveConnected; audio "AAEC"; TimerTick;
             audio "AwQF"; TimerTick; BatchSettled (Text (JsText.ofString "one")) 10;
             TimerTick; BatchSettled (Text (JsText.ofString "two")) 20] initial))
  = [0; 1].
Proof. vm_compute. reflexivity. Qed.

(** The texts of the realtime_transcription messages among the effects. *)
Fixpoint realtime_texts (effects : list Effect) : list string :=
  match effects with
  | [] => []
  | WsSend (RealtimeTranscription text) :: rest => text :: realtime_texts rest
  | _ :: rest => realtime_texts rest
  end.

(** The input transcriptions that the streaming session delivers. *)
Fixpoint transcripts (events : list Event) : list string :=
  match events with
  | [] => []
  | LiveMessage (Some text) :: rest => text :: transcripts rest
  | _ :: rest => transcripts rest
  end.

Lemma realtime_texts_app (a b : list Effect) :
  realtime_texts (a ++ b) = realtime_texts a ++ realtime_texts b.
Proof.
  induction a as [|e a IH]; [reflexivity|].
  destruct e as [m| | | | | | |]; try destruct m; cbn [app realtime_texts];
    now rewrite IH.
Qed.

Lemma Relay_step_realtime (e : Event) (s : State) :
  realtime_texts (snd (Relay.step e s)) = transcripts [e].
Proof.
  destruct e; cbn [Relay.step transcripts];
    unfold Relay.connected, Relay.connectFailed, Relay.onopen,
      Relay.onmessage, Relay.onerror, Relay.onclose, Relay.wsMessage,
      Relay.audioSent, Relay.textSent, Relay.wsClose,
      Relay.clearBatchInterval, Relay.messageErrorEffects,
      Relay.processBatchAudio, Relay.resumeBatch, Relay.batchErrorLog;
    break_match; cbn [snd app realtime_texts]; try reflexivity;
    rewrite ?realtime_texts_app; cbn [realtime_texts app];
    rewrite ?realtime_texts_app; reflexivity.
Qed.

Lemma Backend_step_realtime wavefile writeFileSync (e : Event) (s : State) :
  realtime_texts (snd (Backend.step wavefile writeFileSync e s)) = transcripts [e].
Proof.
  destruct e; cbn [Backend.step transcripts];
    unfold Backend.connected, Backend.connectFailed, Backend.onopen,
      Backend.onmessage, Backend.onerror, Backend.onclose, Backend.wsMessage,
      Backend.inputSent, Backend.wsClose,
      Backend.clearBatchInterval, Backend.messageErrorEffects,
      Backend.processBatchAudio, Backend.createWAVFromPCM,
      Backend.resumeBatch, Backend.batchErrorLog, bind;
    break_match; cbn [snd app realtime_texts]; try reflexivity;
    repeat match goal with
           | H : Some _ = Some _ |- _ => injection H as <- <-
           | H : (_, _) = (_, _) |- _ => injection H as <- <-
           end;
    rewrite ?realtime_texts_app; cbn [realtime_texts app];
    rewrite ?realtime_texts_app; cbn [realtime_texts app]; reflexivity.
Qed.

(** X4.  In every run of a connection of either server, the
    realtime_transcription messages sent to the client are exactly the
    input transcriptions that the streaming session delivered, one message
    for each, in the order of delivery: none is held back, merged,
    repeated or reordered, whatever the batch path does meanwhile. *)
Theorem X4_realtime_relay_in_order :
  (forall events s,
      realtime_texts (snd (Relay.run events s)) = transcripts events)
  /\ (forall wavefile writeFileSync events s,
         realtime_texts (snd (Backend.run wavefile writeFileSync events s))
         = transcripts events).
Proof.
  split.
  - induction events as [|e events IH]; intro s; [reflexivity|].
    rewrite Relay_run_cons. cbn [snd].
    rewrite realtime_texts_app, IH, Relay_step_realtime.
    cbn [transcripts]. destruct e; try reflexivity.
    now destruct inputTranscription.
  - intros wavefile writeFileSync.
    induction events as [|e events IH]; intro s; [reflexivity|].
    rewrite Backend_run_cons. cbn [snd].
    rewrite realtime_texts_app, IH, Backend_step_realtime.
    cbn [transcripts]. destruct e; try reflexivity.
    now destruct inputTranscription.
Qed.

(** The audio payloads among the inputs forwarded to the session. *)
Fixpoint audio_inputs (inputs : list RealtimeInput) : list string :=
  match inputs with
  | [] => []
  | AudioInput data :: rest => data :: audio_inputs rest
  | TextInput _ :: rest => audio_inputs rest
  end.

Lemma audio_inputs_app (a b : list RealtimeInput) :
  audio_inputs (a ++ b) = audio_inputs a ++ audio_inputs b.
Proof.
  induction a as [|i a IH]; [reflexivity|].
  destruct i; cbn [app audio_inputs]; now rewrite IH.
Qed.

(** The events that take fragments out of the window. *)
Definition empties_window (e : Event) : bool :=
  match e with
  | TimerTick | ClientClose => true
  | _ => false
  end.

Lemma Relay_step_both_paths (e : Event) (s : State) :
  empties_window e = false ->
  audioBuffer (fst (Relay.step e s))
  = audioBuffer s ++ audio_inputs (forwarded (snd (Relay.step e s))).
Proof.
  intro H.
  destruct e; try discriminate; cbn [Relay.step];
    unfold Relay.connected, Relay.connectFailed, Relay.onopen,
      Relay.onmessage, Relay.onerror, Relay.onclose, Relay.wsMessage,
      Relay.audioSent, Relay.textSent,
      Relay.clearBatchInterval, Relay.messageErrorEffects,
      Relay.resumeBatch, Relay.batchErrorLog;
    break_match; fields; cbn [app forwarded audio_inputs];
    rewrite ?app_nil_r; reflexivity.
Qed.

Lemma Backend_step_both_paths wavefile writeFileSync (e : Event) (s : State) :
  empties_window e = false ->
  audioBuffer (fst (Backend.step wavefile writeFileSync e s))
  = audioBuffer s
    ++ audio_inputs (forwarded (snd (Backend.step wavefile writeFileSync e s))).
Proof.
  intro H.
  destruct e; try discriminate; cbn [Backend.step];
    unfold Backend.connected, Backend.connectFailed, Backend.onopen,
      Backend.onmessage, Backend.onerror, Backend.onclose, Backend.wsMessage,
      Backend.inputSent,
      Backend.clearBatchInterval, Backend.messageErrorEffects,
      Backend.resumeBatch, Backend.batchErrorLog;
    break_match; fields; cbn [app forwarded audio_inputs];
    rewrite ?app_nil_r; reflexivity.
Qed.

(** X5.  Between two drains the two paths see the same audio: over any
    run of events without a timer tick and without a close, in either
    server, the fragments added to the batch window are exactly the audio
    payloads forwarded to the streaming session, in the same order.  A
    fragment goes to both paths or to neither; text messages, errors and
    completions add nothing to the window. *)
Theorem X5_window_is_what_was_forwarded :
  (forall events s,
      forallb (fun e => negb (empties_window e)) events = true ->
      audioBuffer (fst (Relay.run events s))
      = audioBuffer s
        ++ audio_inputs (forwarded (snd (Relay.run events s))))
  /\ (forall wavefile writeFileSync events s,
         forallb (fun e => negb (empties_window e)) events = true ->
         audioBuffer (fst (Backend.run wavefile writeFileSync events s))
         = audioBuffer s
           ++ audio_inputs
                (forwarded (snd (Backend.run wavefile writeFileSync events s)))).
Proof.
  split.
  - induction events as [|e events IH]; intros s H.
    + cbn. now rewrite app_nil_r.
    + cbn [forallb] in H. apply andb_true_iff in H as [H1 H2].
      apply negb_true_iff in H1.
      rewrite Relay_run_cons. cbn [fst snd].
      rewrite forwarded_app, audio_inputs_app, IH by assumption.
      rewrite (Relay_step_both_paths e s H1). now rewrite app_assoc.
  - intros wavefile writeFileSync. induction events as [|e events IH]; intros s H.
    + cbn. now rewrite app_nil_r.
    + cbn [forallb] in H. apply andb_true_iff in H as [H1 H2].
      apply negb_true_iff in H1.
      rewrite Backend_run_cons. cbn [fst snd].
      rewrite forwarded_app, audio_inputs_app, IH by assumption.
      rewrite (Backend_step_both_paths wavefile writeFileSync e s H1).
      now rewrite app_assoc.
Qed.

Lemma X5_window_is_what_was_forwarded_witness :
  let events :=
    [audio "AAEC"; ClientMessage (Data (Some "text") "" "hello");
     LiveMessage (Some "hi"); audio "AwQF";
     ClientMessage (Unparseable "bad")] in
  forallb (fun e => negb (empties_window e)) events = true
  /\ audioBuffer (fst (Relay.run events active)) = ["AAEC"; "AwQF"]
  /\ forwarded (snd (Relay.run events active))
     = [AudioInput "AAEC"; TextInput "hello"; AudioInput "AwQF"].
Proof.
  cbv zeta. split; [reflexivity|].
  destruct X5_window_is_what_was_forwarded as [H _].
  split.
  - rewrite (H [audio "AAEC"; ClientMessage (Data (Some "text") "" "hello");
                LiveMessage (Some "hi"); audio "AwQF";
                ClientMessage (Unparseable "bad")] active eq_refl).
    reflexivity.
  - reflexivity.
Defined.

(** X6.  createWAVFromPCM of server.js views the PCM as 16-bit samples
    and takes floor(length / 2) of them: the last byte of a PCM of odd
    length is left out without an error, so that the result is the one
    for the PCM without that byte.  The call fails exactly when the
    wavefile package fails on the whole samples or, with a file name
    given, the write of the file fails; otherwise it returns the base64
    text of the buffer of the package. *)
Theorem X6_odd_byte_is_dropped
    (wavefile : N -> N -> string -> list byte -> option Buffer.t)
    (writeFileSync : nat -> Buffer.t -> bool)
    (pcm : list byte) (b : byte) (sampleRate : N) (saveFilename : option nat) :
  Nat.even (List.length pcm) = true ->
  Backend.createWAVFromPCM wavefile writeFileSync
    (Base64.encode (pcm ++ [b])) sampleRate saveFilename
  = Backend.createWAVFromPCM wavefile writeFileSync (Base64.encode pcm)
      sampleRate saveFilename
  /\ (Backend.createWAVFromPCM wavefile writeFileSync (Base64.encode pcm)
        sampleRate saveFilename = None
      <-> (wavefile 1%N sampleRate "16" pcm = None
           \/ exists chunkId wavBuffer,
                saveFilename = Some chunkId
                /\ wavefile 1%N sampleRate "16" pcm = Some wavBuffer
                /\ writeFileSync chunkId wavBuffer = false))
  /\ forall wavBuffer,
       wavefile 1%N sampleRate "16" pcm = Some wavBuffer ->
       (forall chunkId,
           saveFilename = Some chunkId ->
           writeFileSync chunkId wavBuffer = true) ->
       option_map fst
         (Backend.createWAVFromPCM wavefile writeFileSync
            (Base64.encode (pcm ++ [b])) sampleRate saveFilename)
       = Some (Base64.encode wavBuffer).
Proof.
  intro E. apply Nat.even_spec in E as [k E].
  unfold Backend.createWAVFromPCM. rewrite !decode_encode.
  assert (D1 : List.length pcm / 2 = k).
  { rewrite E, Nat.mul_comm. apply Nat.div_mul. discriminate. }
  assert (D2 : List.length (pcm ++ [b]) / 2 = k).
  { rewrite length_app, E, (Nat.mul_comm 2 k). cbn [List.length].
    rewrite Nat.div_add_l by discriminate. cbn. apply Nat.add_0_r. }
  assert (H1 : firstn (2 * (List.length pcm / 2)) pcm = pcm).
  { rewrite D1, <- E. apply firstn_all. }
  assert (H2 : firstn (2 * (List.length (pcm ++ [b]) / 2)) (pcm ++ [b]) = pcm).
  { rewrite D2, <- E.
    rewrite firstn_app, Nat.sub_diag, firstn_all. cbn. apply app_nil_r. }
  rewrite H1, H2. split; [reflexivity|]. split.
  - destruct (wavefile 1%N sampleRate "16" pcm) as [w|]; cbn [bind].
    + destruct saveFilename as [chunkId|]; cbn [bind].
      * destruct (writeFileSync chunkId w) eqn:W; cbn [bind]; split.
        -- discriminate.
        -- intros [H|(c & w' & Hc & Hw & Hf)]; [discriminate|].
           injection Hc as <-. injection Hw as <-. congruence.
        -- intros _. right. now exists chunkId, w.
        -- reflexivity.
      * split; [discriminate|].
        intros [H|(c & w' & Hc & _)]; discriminate.
    + split; [now left|reflexivity].
  - intros wavBuffer -> W. cbn [bind].
    destruct saveFilename as [chunkId|]; cbn [bind]; [|reflexivity].
    now rewrite (W chunkId eq_refl).
Qed.

Lemma X6_odd_byte_is_dropped_witness :
  Nat.even (List.length [x01; x00]) = true
  /\ Backend.createWAVFromPCM samples_only write_ok
       (Base64.encode [x01; x00; x02]) 16000 (Some 0)
     = Backend.createWAVFromPCM samples_only write_ok
         (Base64.encode [x01; x00]) 16000 (Some 0)
  /\ Backend.createWAVFromPCM samples_only write_fails
       (Base64.encode [x01; x00]) 16000 (Some 0) = None.
Proof.
  split; [reflexivity|].
  destruct (X6_odd_byte_is_dropped samples_only write_ok [x01; x00] x02
              16000 (Some 0) eq_refl) as [H _].
  destruct (X6_odd_byte_is_dropped samples_only write_fails [x01; x00] x02
              16000 (Some 0) eq_refl) as (_ & F & _).
  split; [exact H|].
  apply F. right. now exists 0, [x01; x00].
Defined.

(** X7.  The join of server.js is exact as long as padding can only
    stand at the very end: for fragments whose byte lengths, but for the
    last one, are multiples of three, decoding the joined base64 strings
    once gives the bytes of all fragments in the order of arrival, as the
    fragment-wise decoding of part_003 does. *)
Theorem X7_join_exact_without_inner_padding
    (init : list (list byte)) (last : list byte) :
  Forall (fun f => List.length f mod 3 = 0) init ->
  Backend.combinedBuffer (map Base64.encode (init ++ [last]))
  = List.concat (init ++ [last])
  /\ Backend.combinedBuffer (map Base64.encode (init ++ [last]))
     = Relay.combinedBuffer (map Base64.encode (init ++ [last])).
Proof.
  intro H. rewrite Relay_combinedBuffer_exact.
  split; now apply Backend_combinedBuffer_exact_unpadded.
Qed.

Lemma X7_join_exact_without_inner_padding_witness :
  Forall (fun f => List.length f mod 3 = 0) [[x00; x01; x02]; []]
  /\ Backend.combinedBuffer
       (map Base64.encode ([[x00; x01; x02]; []] ++ [[x03; x04]]))
     = [x00; x01; x02; x03; x04].
Proof.
  assert (H : Forall (fun f => List.length f mod 3 = 0) [[x00; x01; x02]; []])
    by (repeat constructor).
  split; [exact H|].
  destruct (X7_join_exact_without_inner_padding
              [[x00; x01; x02]; []] [x03; x04] H) as [E _].
  exact E.
Defined.

(* ===================================================================== *)
(*  More of the receiver                                                 *)
(* ===================================================================== *)

Module Client.

(** The realtime_transcription case of ws.onmessage (lines 215-223):
    the new text is added behind a space, or stands alone when nothing is
    shown yet; an empty text is left out. *)
Definition onRealtime (prev text : string) : string :=
  if JsString.truthy text then
    if JsString.truthy prev then (prev ++ " " ++ text)%string else text
  else prev.

Definition receiveRealtime (texts : list string) (prev : string) : string :=
  fold_left onRealtime texts prev.

(** [map.get(key)]. *)
Fixpoint get (key : nat) (m : Receiver.ChunkMap) : option string :=
  match m with
  | [] => None
  | (k, v) :: rest => if (k =? key)%nat then Some v else get key rest
  end.

End Client.

(** The last text that is not empty among the messages with the number
    [key], or [acc] when there is none. *)
Fixpoint latest (key : nat) (arrivals : list (nat * string))
    (acc : option string) : option string :=
  match arrivals with
  | [] => acc
  | (k, t) :: rest =>
      latest key rest
        (if ((k =? key)%nat && JsString.truthy t)%bool then Some t else acc)
  end.

Lemma get_set_same (key : nat) (value : string) (m : Receiver.ChunkMap) :
  Client.get key (Receiver.set key value m) = Some value.
Proof.
  induction m as [|[k v] m IH]; cbn [Receiver.set Client.get].
  - now rewrite Nat.eqb_refl.
  - destruct (k =? key)%nat eqn:E; cbn [Client.get]; rewrite E; auto.
Qed.

Lemma get_set_other (key key' : nat) (value : string) (m : Receiver.ChunkMap) :
  key <> key' ->
  Client.get key' (Receiver.set key value m) = Client.get key' m.
Proof.
  intro N. induction m as [|[k v] m IH]; cbn [Receiver.set Client.get].
  - apply Nat.eqb_neq in N. now rewrite N.
  - destruct (k =? key)%nat eqn:E; cbn [Client.get].
    + apply Nat.eqb_eq in E. subst k.
      apply Nat.eqb_neq in N. now rewrite N.
    + now rewrite IH.
Qed.

Lemma set_keys (key : nat) (value : string) (m : Receiver.ChunkMap) :
  map fst (Receiver.set key value m)
  = if existsb (Nat.eqb key) (map fst m) then map fst m
    else map fst m ++ [key].
Proof.
  induction m as [|[k v] m IH]; [reflexivity|].
  cbn [Receiver.set map fst existsb].
  rewrite (Nat.eqb_sym key k).
  destruct (k =? key)%nat eqn:E; cbn [map fst orb]; [reflexivity|].
  rewrite IH. now destruct (existsb (Nat.eqb key) (map fst m)).
Qed.

Lemma set_keeps_keys_distinct (key : nat) (value : string)
    (m : Receiver.ChunkMap) :
  NoDup (map fst m) -> NoDup (map fst (Receiver.set key value m)).
Proof.
  intro D. rewrite set_keys.
  destruct (existsb (Nat.eqb key) (map fst m)) eqn:E; [exact D|].
  apply NoDup_app; [exact D|repeat constructor; auto|].
  intros x Hx [Hk|[]]. subst x.
  assert (C : existsb (Nat.eqb key) (map fst m) = true).
  { apply existsb_exists. exists key. split; [exact Hx|apply Nat.eqb_refl]. }
  congruence.
Qed.

Lemma receive_cons (k : nat) (t : string) (arrivals : list (nat * string))
    (v : Receiver.View) :
  Receiver.receive ((k, t) :: arrivals) v
  = Receiver.receive arrivals (Receiver.onCorrected k t v).
Proof. reflexivity. Qed.

Lemma receive_keys_distinct (arrivals : list (nat * string))
    (v : Receiver.View) :
  NoDup (map fst (Receiver.transcriptionChunks v)) ->
  NoDup (map fst (Receiver.transcriptionChunks (Receiver.receive arrivals v))).
Proof.
  revert v. induction arrivals as [|[k t] arrivals IH]; intros v D; [exact D|].
  rewrite receive_cons. apply IH.
  unfold Receiver.onCorrected. destruct (JsString.truthy t); [|exact D].
  now apply set_keeps_keys_distinct.
Qed.

(** X8.  The Map of the receiver, for any sequence of
    corrected_transcription messages, repeated sequence numbers and empty
    texts included: the text stored under a number is the text of the last
    message with that number whose text is not empty (what was stored
    before, when there is none); the numbers in the Map stay distinct; and
    what is shown is the rendering of the Map.  A repeated message changes
    nothing and a correction of a batch replaces its text in place. *)
Theorem X8_receiver_last_text_wins
    (arrivals : list (nat * string)) (v : Receiver.View) (key : nat) :
  NoDup (map fst (Receiver.transcriptionChunks v)) ->
  Receiver.correctedTranscription v
  = Receiver.render (Receiver.transcriptionChunks v) ->
  let v' := Receiver.receive arrivals v in
  Client.get key (Receiver.transcriptionChunks v')
  = latest key arrivals (Client.get key (Receiver.transcriptionChunks v))
  /\ NoDup (map fst (Receiver.transcriptionChunks v'))
  /\ Receiver.correctedTranscription v'
     = Receiver.render (Receiver.transcriptionChunks v').
Proof.
  intros D R. cbv zeta.
  split; [|split; [|now apply receive_rendered]].
  - clear R. revert v D.
    induction arrivals as [|[k t] arrivals IH]; intros v D; [reflexivity|].
    rewrite receive_cons. cbn [latest].
    assert (D1 : NoDup (map fst (Receiver.transcriptionChunks
                                   (Receiver.onCorrected k t v)))).
    { unfold Receiver.onCorrected. destruct (JsString.truthy t); [|exact D].
      now apply set_keeps_keys_distinct. }
    rewrite (IH _ D1). f_equal.
    unfold Receiver.onCorrected.
    destruct (JsString.truthy t); cbn [Receiver.transcriptionChunks];
      rewrite ?andb_false_r; [|reflexivity].
    rewrite andb_true_r. destruct (k =? key)%nat eqn:E.
    + apply Nat.eqb_eq in E. subst. apply get_set_same.
    + apply Nat.eqb_neq in E. now apply get_set_other.
  - now apply receive_keys_distinct.
Qed.

Lemma X8_receiver_last_text_wins_witness :
  let arrivals := [(1, "b"); (0, "a"); (1, ""); (0, "c"); (0, "c")] in
  (NoDup (map fst (Receiver.transcriptionChunks Receiver.start))
   /\ Receiver.correctedTranscription Receiver.start
      = Receiver.render (Receiver.transcriptionChunks Receiver.start))
  /\ Client.get 0 (Receiver.transcriptionChunks
                     (Receiver.receive arrivals Receiver.start)) = Some "c"
  /\ Client.get 1 (Receiver.transcriptionChunks
                     (Receiver.receive arrivals Receiver.start)) = Some "b"
  /\ Receiver.correctedTranscription
       (Receiver.receive arrivals Receiver.start) = "c b".
Proof.
  cbv zeta.
  assert (D : NoDup (map fst (Receiver.transcriptionChunks Receiver.start)))
    by constructor.
  split; [split; [exact D|reflexivity]|].
  destruct (X8_receiver_last_text_wins
              [(1, "b"); (0, "a"); (1, ""); (0, "c"); (0, "c")]
              Receiver.start 0 D eq_refl) as (G0 & _ & _).
  destruct (X8_receiver_last_text_wins
              [(1, "b"); (0, "a"); (1, ""); (0, "c"); (0, "c")]
              Receiver.start 1 D eq_refl) as (G1 & _ & _).
  split; [exact G0|]. split; [exact G1|]. reflexivity.
Defined.

Definition key_le (a b : nat * string) : Prop := fst a <= fst b.
Definition key_lt (a b : nat * string) : Prop := fst a < fst b.

Lemma insert_permutation (e : nat * string) (l : list (nat * string)) :
  Permutation (Receiver.insert e l) (e :: l).
Proof.
  induction l as [|x l IH]; cbn [Receiver.insert]; [apply Permutation_refl|].
  destruct (fst e <=? fst x)%nat; [apply Permutation_refl|].
  apply (Permutation_trans (l' := x :: e :: l)); [now constructor|constructor].
Qed.

Lemma sort_is_permutation (l : list (nat * string)) :
  Permutation (Receiver.sort l) l.
Proof.
  unfold Receiver.sort. induction l as [|e l IH]; [constructor|].
  cbn [fold_right].
  apply (Permutation_trans (insert_permutation e _)). now constructor.
Qed.

Lemma insert_sorted (e : nat * string) (l : list (nat * string)) :
  StronglySorted key_le l -> StronglySorted key_le (Receiver.insert e l).
Proof.
  induction 1 as [|x l S IH F]; cbn [Receiver.insert].
  - repeat constructor.
  - destruct (fst e <=? fst x)%nat eqn:E.
    + apply Nat.leb_le in E. constructor; [now constructor|].
      constructor; [exact E|].
      apply (Forall_impl (P := key_le x)); [|exact F].
      unfold key_le. intros; lia.
    + apply Nat.leb_gt in E. constructor; [exact IH|].
      eapply Permutation_Forall.
      * apply Permutation_sym, insert_permutation.
      * constructor; [unfold key_le; lia|exact F].
Qed.

Lemma sort_sorted (l : list (nat * string)) :
  StronglySorted key_le (Receiver.sort l).
Proof.
  unfold Receiver.sort. induction l as [|e l IH]; [constructor|].
  cbn [fold_right]. now apply insert_sorted.
Qed.

Lemma sorted_distinct_strict (l : list (nat * string)) :
  StronglySorted key_le l -> NoDup (map fst l) -> StronglySorted key_lt l.
Proof.
  induction 1 as [|x l S IH F]; intro D; [constructor|].
  cbn [map] in D. inversion D as [|? ? Hin D']; subst.
  constructor; [now apply IH|].
  rewrite Forall_forall in *. intros y Hy.
  specialize (F y Hy). unfold key_le, key_lt in *.
  assert (fst x <> fst y).
  { intro E. apply Hin. rewrite E. now apply in_map. }
  lia.
Qed.

(** X9.  What the receiver shows after any sequence of
    corrected_transcription messages is the texts of the Map joined by one
    space, each stored text exactly once, in the strictly ascending order
    of the sequence numbers, whatever the order in which the numbers
    entered the Map. *)
Theorem X9_receiver_shows_ascending (arrivals : list (nat * string)) :
  let v := Receiver.receive arrivals Receiver.start in
  let sortedChunks := Receiver.sort (Receiver.transcriptionChunks v) in
  Receiver.correctedTranscription v = JsString.join " " (map snd sortedChunks)
  /\ StronglySorted key_lt sortedChunks
  /\ Permutation sortedChunks (Receiver.transcriptionChunks v).
Proof.
  cbv zeta.
  assert (D0 : NoDup (map fst (Receiver.transcriptionChunks Receiver.start)))
    by constructor.
  pose proof (receive_keys_distinct arrivals Receiver.start D0) as D.
  pose proof (receive_rendered arrivals Receiver.start eq_refl) as R.
  split; [exact R|]. split; [|apply sort_is_permutation].
  apply sorted_distinct_strict; [apply sort_sorted|].
  apply (Permutation_NoDup (l := map fst (Receiver.transcriptionChunks
                                            (Receiver.receive arrivals
                                               Receiver.start))));
    [|exact D].
  apply Permutation_map, Permutation_sym, sort_is_permutation.
Qed.

Lemma append_assoc (a b c : string) :
  ((a ++ b) ++ c = a ++ (b ++ c))%string.
Proof.
  induction a as [|x a IH]; [reflexivity|].
  cbn [String.append]. now rewrite IH.
Qed.

Lemma onRealtime_nonempty (prev text : string) :
  prev <> "" -> Client.onRealtime prev text <> "".
Proof.
  intro H. unfold Client.onRealtime.
  destruct (JsString.truthy text); [|exact H].
  apply truthy_nonempty in H. rewrite H.
  destruct prev; [discriminate|]. discriminate.
Qed.

Lemma receiveRealtime_from (texts : list string) (prev : string) :
  prev <> "" ->
  Client.receiveRealtime texts prev
  = JsString.join " " (prev :: filter JsString.truthy texts).
Proof.
  unfold Client.receiveRealtime.
  revert prev. induction texts as [|t texts IH]; intros prev H; [reflexivity|].
  cbn [fold_left filter].
  rewrite (IH _ (onRealtime_nonempty prev t H)).
  unfold Client.onRealtime. destruct (JsString.truthy t); [|reflexivity].
  apply truthy_nonempty in H. rewrite H.
  destruct (filter JsString.truthy texts) as [|y r]; [reflexivity|].
  cbn [JsString.join]. now rewrite !append_assoc.
Qed.

(** X10.  The realtime text of the receiver, from nothing shown: after
    any sequence of realtime_transcription messages it is the texts that
    are not empty, in the order of arrival, joined by one space; there is
    no space in front, none at the end, and no doubled one for an empty
    text. *)
Theorem X10_realtime_text_is_join (texts : list string) :
  Client.receiveRealtime texts ""
  = JsString.join " " (filter JsString.truthy texts).
Proof.
  induction texts as [|t texts IH]; [reflexivity|].
  unfold Client.receiveRealtime in *. cbn [fold_left filter].
  unfold Client.onRealtime at 2. cbn [JsString.truthy String.eqb negb].
  destruct (JsString.truthy t) eqn:T; [|exact IH].
  apply truthy_nonempty in T.
  exact (receiveRealtime_from texts t T).
Qed.

Example realtime_three :
  Client.receiveRealtime ["hello"; ""; "world"; "again"] ""
  = "hello world again".
Proof. vm_compute. reflexivity. Qed.

(* ===================================================================== *)
(*  The recorder of the client (GdmLiveAudioSecure.tsx)                  *)
(* ===================================================================== *)

(** A DataView over an ArrayBuffer: the setters reduce the value modulo
    their width and throw a RangeError only when the bytes do not fit.
    Multi-byte values are written little-endian, as the code asks. *)
Module DataView.

Definition setUint8 (byteOffset : nat) (value : N) (buf : Buffer.t)
  : option Buffer.t :=
  if (byteOffset + 1 <=? List.length buf)%nat
  then Some (Buffer.blit [byte_of_N value] byteOffset buf)
  else None.

Definition setUint16 (byteOffset : nat) (value : N) (buf : Buffer.t)
  : option Buffer.t :=
  if (byteOffset + 2 <=? List.length buf)%nat
  then Some (Buffer.blit (Buffer.le_bytes16 value) byteOffset buf)
  else None.

Definition setUint32 (byteOffset : nat) (value : N) (buf : Buffer.t)
  : option Buffer.t :=
  if (byteOffset + 4 <=? List.length buf)%nat
  then Some (Buffer.blit (Buffer.le_bytes32 value) byteOffset buf)
  else None.

End DataView.

Module Recorder.
Section WithSamples.

(** A float sample of the microphone, and the 16 bits that
    [int16Array[i] = s < 0 ? s * 0x8000 : s * 0x7FFF] stores for it after
    the clamp to [-1, 1]. *)
Variable Sample : Type.
Variable toInt16 : Sample -> N.

(** The bytes of an Int16Array seen through a Uint8Array, on a
    little-endian machine. *)
Definition int16Bytes (int16Array : list N) : list byte :=
  flat_map Buffer.le_bytes16 int16Array.

(** convertToPCM16Base64 (lines 142-155); [btoa] of the binary string is
    the padded base64 of its bytes. *)
Definition convertToPCM16Base64 (float32Array : list Sample) : string :=
  let int16Array := map toInt16 float32Array in
  let uint8Array := int16Bytes int16Array in
  Base64.encode uint8Array.

(** writeString of convertToWAV: one setUint8 for each character. *)
Fixpoint writeString (offset : nat) (s : string) (view : Buffer.t)
  : option Buffer.t :=
  match s with
  | EmptyString => Some view
  | String c rest =>
      view' <- DataView.setUint8 offset (N_of_ascii c) view ;;
      writeString (S offset) rest view'
  end.

(** The last loop of convertToWAV: one setUint8 for each byte. *)
Fixpoint writeBytes (offset : nat) (bytes : list byte) (view : Buffer.t)
  : option Buffer.t :=
  match bytes with
  | [] => Some view
  | b :: rest =>
      view' <- DataView.setUint8 offset (Byte.to_N b) view ;;
      writeBytes (S offset) rest view'
  end.

(** convertToWAV (lines 401-446), up to the Blob that wraps the bytes. *)
Definition convertToWAV (audioChunks : list (list Sample)) (sampleRate : N)
  : option Buffer.t :=
  let audioBuffer := List.concat audioChunks in
  let pcm16 := map toInt16 audioBuffer in
  let wavBuffer := Buffer.alloc (44 + List.length pcm16 * 2) in
  let view := wavBuffer in
  view <- writeString 0 "RIFF" view ;;
  view <- DataView.setUint32 4 (36 + N.of_nat (List.length pcm16) * 2) view ;;
  view <- writeString 8 "WAVE" view ;;
  view <- writeString 12 "fmt " view ;;
  view <- DataView.setUint32 16 16 view ;;
  view <- DataView.setUint16 20 1 view ;;
  view <- DataView.setUint16 22 1 view ;;
  view <- DataView.setUint32 24 sampleRate view ;;
  view <- DataView.setUint32 28 (sampleRate * 2) view ;;
  view <- DataView.setUint16 32 2 view ;;
  view <- DataView.setUint16 34 16 view ;;
  view <- writeString 36 "data" view ;;
  view <- DataView.setUint32 40 (N.of_nat (List.length pcm16) * 2) view ;;
  let pcm8 := int16Bytes pcm16 in
  writeBytes 44 pcm8 view.

End WithSamples.
End Recorder.

Lemma blit_one (b o : byte) (pre rest : list byte) :
  Buffer.blit [b] (List.length pre) (pre ++ o :: rest) = pre ++ b :: rest.
Proof.
  induction pre as [|p pre IH]; [reflexivity|].
  cbn [List.length app Buffer.blit]. now rewrite IH.
Qed.

Lemma writeBytes_over (bytes old pre post : list byte) :
  List.length old = List.length bytes ->
  Recorder.writeBytes (List.length pre) bytes (pre ++ old ++ post)
  = Some (pre ++ bytes ++ post).
Proof.
  revert old pre. induction bytes as [|b bytes IH]; intros old pre H.
  - destruct old; [reflexivity|discriminate].
  - destruct old as [|o old]; [discriminate|]. injection H as H.
    cbn [Recorder.writeBytes app]. unfold DataView.setUint8.
    assert (L : (List.length pre + 1 <=? List.length (pre ++ o :: old ++ post))%nat
                = true).
    { apply Nat.leb_le. rewrite length_app. cbn [List.length]. lia. }
    rewrite L. cbn [bind]. rewrite byte_of_N_to_N, blit_one.
    replace (pre ++ b :: old ++ post) with ((pre ++ [b]) ++ old ++ post)
      by (now rewrite <- app_assoc).
    replace (S (List.length pre)) with (List.length (pre ++ [b]))
      by (rewrite length_app; cbn; lia).
    rewrite (IH old (pre ++ [b]) H). now rewrite <- app_assoc.
Qed.

Lemma int16Bytes_length (int16Array : list N) :
  List.length (Recorder.int16Bytes int16Array) = List.length int16Array * 2.
Proof.
  unfold Recorder.int16Bytes.
  induction int16Array as [|x l IH]; [reflexivity|].
  cbn [flat_map List.length]. rewrite length_app, IH. cbn. lia.
Qed.

Lemma convertToWAV_bytes {Sample : Type} (toInt16 : Sample -> N)
    (audioChunks : list (list Sample)) :
  let pcm16 := map toInt16 (List.concat audioChunks) in
  Recorder.convertToWAV Sample toInt16 audioChunks 16000
  = Some (wavLayout (N.of_nat (List.length pcm16) * 2) 16000
            ++ Recorder.int16Bytes pcm16).
Proof.
  cbv zeta. unfold Recorder.convertToWAV.
  pose proof (int16Bytes_length (map toInt16 (List.concat audioChunks))) as L.
  remember (Recorder.int16Bytes (map toInt16 (List.concat audioChunks)))
    as data eqn:Ed.
  remember (List.length (map toInt16 (List.concat audioChunks))) as n eqn:En.
  change (Buffer.alloc (44 + n * 2))
    with (Buffer.alloc 44 ++ repeat x00 (n * 2)).
  assert (Lt : List.length (repeat x00 (n * 2)) = List.length data)
    by (now rewrite repeat_length).
  remember (repeat x00 (n * 2)) as tail eqn:Et. clear Et Ed L En.
  transitivity
    (Recorder.writeBytes 44 data
       (wavLayout (N.of_nat n * 2) 16000 ++ tail ++ [])).
  - rewrite app_nil_r. reflexivity.
  - change 44 with (List.length (wavLayout (N.of_nat n * 2) 16000)).
    rewrite (writeBytes_over data tail _ [] Lt). now rewrite app_nil_r.
Qed.

Lemma int16Bytes_app (a b : list N) :
  Recorder.int16Bytes (a ++ b)
  = Recorder.int16Bytes a ++ Recorder.int16Bytes b.
Proof. unfold Recorder.int16Bytes. apply flat_map_app. Qed.

(** The bytes of the samples of all frames are the bytes of each frame,
    one frame after the other. *)
Lemma int16Bytes_concat {Sample : Type} (toInt16 : Sample -> N)
    (frames : list (list Sample)) :
  Recorder.int16Bytes (map toInt16 (List.concat frames))
  = List.concat
      (map (fun f => Recorder.int16Bytes (map toInt16 f)) frames).
Proof.
  induction frames as [|f frames IH]; [reflexivity|].
  cbn [List.concat map]. now rewrite map_app, int16Bytes_app, IH.
Qed.

(** X11.  convertToWAV of the client never fails.  For any recorded
    chunks it returns 44 + 2n bytes, n the number of samples of all
    chunks: a 44-byte header followed by the two bytes of every sample,
    chunk after chunk in the order of recording.  While the sizes fit 32
    bits the header says RIFF, ChunkSize 36 + 2n, WAVE, fmt, PCM, one
    channel, 16000 Hz, byte rate 32000, block align 2, 16 bits, data, and
    data length 2n. *)
Theorem X11_recorded_wav {Sample : Type} (toInt16 : Sample -> N)
    (audioChunks : list (list Sample)) :
  let n := List.length (List.concat audioChunks) in
  let data :=
    List.concat
      (map (fun f => Recorder.int16Bytes (map toInt16 f)) audioChunks) in
  exists header : Buffer.t,
    Recorder.convertToWAV Sample toInt16 audioChunks 16000
      = Some (header ++ data)
    /\ List.length header = 44
    /\ List.length (header ++ data) = 44 + 2 * n
    /\ ((36 + N.of_nat n * 2 <= 4294967295)%N ->
        Buffer.slice header 0 4 = tag "RIFF"
        /\ Buffer.readUInt32LE header 4 = (36 + N.of_nat n * 2)%N
        /\ Buffer.slice header 8 16 = tag "WAVEfmt "
        /\ Buffer.readUInt32LE header 16 = 16%N
        /\ Buffer.readUInt16LE header 20 = 1%N
        /\ Buffer.readUInt16LE header 22 = 1%N
        /\ Buffer.readUInt32LE header 24 = 16000%N
        /\ Buffer.readUInt32LE header 28 = 32000%N
        /\ Buffer.readUInt16LE header 32 = 2%N
        /\ Buffer.readUInt16LE header 34 = 16%N
        /\ Buffer.slice header 36 40 = tag "data"
        /\ Buffer.readUInt32LE header 40 = (N.of_nat n * 2)%N).
Proof.
  cbv zeta.
  exists (wavLayout (N.of_nat (List.length (List.concat audioChunks)) * 2)
            16000).
  pose proof (convertToWAV_bytes toInt16 audioChunks) as W. cbv zeta in W.
  rewrite length_map, int16Bytes_concat in W.
  split; [exact W|].
  split; [reflexivity|].
  split.
  - rewrite length_app, <- int16Bytes_concat, int16Bytes_length, length_map.
    cbn [List.length wavLayout]. change (List.length (wavLayout _ 16000)) with 44.
    lia.
  - intro H. now apply wavLayout_fields.
Qed.

Lemma X11_recorded_wav_witness :
  exists header : Buffer.t,
    Recorder.convertToWAV N (fun s => s) [[1; 2]; []; [65535]]%N 16000
    = Some (header ++ [x01; x00; x02; x00; xff; xff])
    /\ Buffer.readUInt32LE header 4 = 42%N
    /\ Buffer.readUInt32LE header 40 = 6%N.
Proof.
  destruct (X11_recorded_wav (fun s : N => s) [[1; 2]; []; [65535]]%N)
    as (header & W & _ & _ & F).
  exists header. split; [exact W|].
  destruct F as (_ & F4 & _ & _ & _ & _ & _ & _ & _ & _ & _ & F40);
    [vm_compute; discriminate|].
  split; [exact F4|exact F40].
Defined.

(** What the server decodes from a fragment of the client. *)
Lemma decode_client_fragment {Sample : Type} (toInt16 : Sample -> N)
    (frame : list Sample) :
  Base64.decode (Recorder.convertToPCM16Base64 Sample toInt16 frame)
  = Recorder.int16Bytes (map toInt16 frame).
Proof. unfold Recorder.convertToPCM16Base64. apply decode_encode. Qed.

Lemma Relay_combined_client_frames {Sample : Type} (toInt16 : Sample -> N)
    (frames : list (list Sample)) :
  Relay.combinedBuffer
    (map (Recorder.convertToPCM16Base64 Sample toInt16) frames)
  = Recorder.int16Bytes (map toInt16 (List.concat frames)).
Proof.
  rewrite int16Bytes_concat.
  rewrite <- (Relay_combinedBuffer_exact
                (map (fun f => Recorder.int16Bytes (map toInt16 f)) frames)).
  now rewrite map_map.
Qed.

(** X12.  Client and server of part_003 agree on the audio.  Every
    fragment that convertToPCM16Base64 makes of a frame decodes on the
    server to the two bytes of each sample, in order; and for the frames
    of a batch, the WAV that the server submits is, byte for byte, the WAV
    that convertToWAV of the client builds from the same frames. *)
Theorem X12_server_wav_is_client_wav {Sample : Type} (toInt16 : Sample -> N)
    (frames : list (list Sample)) :
  (36 + N.of_nat (List.length (List.concat frames)) * 2 <= 4294967295)%N ->
  Forall (fun frame =>
            Base64.decode (Recorder.convertToPCM16Base64 Sample toInt16 frame)
            = Recorder.int16Bytes (map toInt16 frame)
            /\ List.length
                 (Base64.decode
                    (Recorder.convertToPCM16Base64 Sample toInt16 frame))
               = List.length frame * 2) frames
  /\ option_map Base64.decode
       (Relay.createWAVFromPCM
          (Base64.encode
             (Relay.combinedBuffer
                (map (Recorder.convertToPCM16Base64 Sample toInt16) frames)))
          16000)
     = Recorder.convertToWAV Sample toInt16 frames 16000.
Proof.
  intro H. split.
  - apply Forall_forall. intros frame _.
    rewrite decode_client_fragment, int16Bytes_length, length_map. auto.
  - rewrite Relay_combined_client_frames.
    pose proof (convertToWAV_bytes toInt16 frames) as W. cbv zeta in W.
    rewrite W.
    assert (L : N.of_nat
                  (List.length
                     (Recorder.int16Bytes (map toInt16 (List.concat frames))))
                = (N.of_nat (List.length (map toInt16 (List.concat frames)))
                   * 2)%N).
    { rewrite int16Bytes_length. lia. }
    rewrite createWAVFromPCM_layout.
    + cbn [option_map]. now rewrite decode_encode, L.
    + rewrite L, length_map. exact H.
Qed.

Lemma X12_server_wav_is_client_wav_witness :
  (36 + N.of_nat (List.length (List.concat [[1; 2]; [3]]%N)) * 2
   <= 4294967295)%N
  /\ option_map Base64.decode
       (Relay.createWAVFromPCM
          (Base64.encode
             (Relay.combinedBuffer
                (map (Recorder.convertToPCM16Base64 N (fun s => s))
                   [[1; 2]; [3]]%N)))
          16000)
     = Recorder.convertToWAV N (fun s => s) [[1; 2]; [3]]%N 16000.
Proof.
  assert (H : (36 + N.of_nat (List.length (List.concat [[1; 2]; [3]]%N)) * 2
               <= 4294967295)%N) by (vm_compute; discriminate).
  split; [exact H|].
  destruct (X12_server_wav_is_client_wav (fun s : N => s) [[1; 2]; [3]]%N H)
    as [_ E].
  exact E.
Defined.

(** X13.  Client and server.js do not agree.  When the first frame of a
    batch has a number of samples whose double is no multiple of three (as
    the 4096 samples of the client's script processor), the PCM that
    server.js puts into the WAV is the bytes of that first frame alone,
    however many frames follow. *)
Theorem X13_backend_keeps_first_client_frame {Sample : Type}
    (toInt16 : Sample -> N) (frame : list Sample)
    (rest : list (list Sample)) :
  (List.length frame * 2) mod 3 <> 0 ->
  Backend.combinedBuffer
    (map (Recorder.convertToPCM16Base64 Sample toInt16) (frame :: rest))
  = Recorder.int16Bytes (map toInt16 frame).
Proof.
  intro H. cbn [map]. unfold Recorder.convertToPCM16Base64 at 1.
  apply Backend_combinedBuffer_truncates.
  now rewrite int16Bytes_length, length_map.
Qed.

Lemma X13_backend_keeps_first_client_frame_witness :
  (List.length (repeat 7%N 4096) * 2) mod 3 <> 0
  /\ Backend.combinedBuffer
       (map (Recorder.convertToPCM16Base64 N (fun s => s))
          (repeat 7%N 4096 :: [repeat 9%N 4096; repeat 11%N 4096]))
     = Recorder.int16Bytes (map (fun s => s) (repeat 7%N 4096)).
Proof.
  assert (H : (List.length (repeat 7%N 4096) * 2) mod 3 <> 0)
    by (rewrite repeat_length; vm_compute; discriminate).
  split; [exact H|].
  exact (X13_backend_keeps_first_client_frame (fun s : N => s)
           (repeat 7%N 4096) [repeat 9%N 4096; repeat 11%N 4096] H).
Defined.
